(** * Change detection of the syllabus scraper: a shallow embedding

    This development embeds the core of the scraper in Rocq:
    - [normalizeText] and [makeHash] of [src/utils.ts];
    - [compareCourses] of [src/utils.ts];
    - [loadPrev] and [saveCurr] of [src/storage.ts];
    - the detail fetch ([fetchDetail]) and the worker pool of the scraper
      entry point, with the interleavings of its asynchronous workers as a
      step relation, and the snapshot its [main] builds;
    - the list extraction and the worker pool of the earlier scraper copy
      in [src/storage.ts];
    - [escapeHtml] and the table rows of [src/build-html.ts];
    - the message of [notifySlack] in [src/notify.ts].

    JavaScript strings are sequences of UTF-16 code units, modelled as
    [list Z].  Platform functions that are not part of the repository
    (SHA-256, [JSON.parse], [JSON.stringify], the file system, the [URL]
    constructor, the browser) are section variables. *)

From Stdlib Require Import ZArith List Bool Lia Permutation Arith.
Import ListNotations.
Open Scope Z_scope.

(** ** JavaScript strings *)

(** A JavaScript string: its UTF-16 code units. *)
Definition jsstr := list Z.

(** Equality of JavaScript strings ([===] on strings). *)
Fixpoint jsstr_eqb (a b : jsstr) : bool :=
  match a, b with
  | [], [] => true
  | x :: a', y :: b' => Z.eqb x y && jsstr_eqb a' b'
  | _, _ => false
  end.

(** The empty string is the only falsy string ([s || t]). *)
Definition js_or (s t : jsstr) : jsstr :=
  match s with [] => t | _ => s end.

(** The code units matched by the regular expression class [\s]: the
    ECMAScript WhiteSpace and LineTerminator productions.  [String.prototype.trim]
    removes exactly the same set. *)
Definition is_ws (c : Z) : bool :=
  (c =? 9) || (c =? 10) || (c =? 11) || (c =? 12) || (c =? 13) || (c =? 32)
  || (c =? 160) || (c =? 5760) || ((8192 <=? c) && (c <=? 8202))
  || (c =? 8232) || (c =? 8233) || (c =? 8239) || (c =? 8287)
  || (c =? 12288) || (c =? 65279).

(** ** [normalizeText] (src/utils.ts) *)

(** [.replace(/\r?\n+/g, " ")]: a global left-to-right scan.  [in_run] is
    true while the scan is inside a match that has consumed at least one
    line feed, so that further line feeds extend the same match; a carriage
    return starts a new match only when a line feed follows it. *)
Fixpoint replace_newlines (in_run : bool) (s : jsstr) : jsstr :=
  match s with
  | [] => []
  | c :: t =>
      if c =? 10 then
        (if in_run then replace_newlines true t
         else 32 :: replace_newlines true t)
      else if c =? 13 then
        match t with
        | d :: t' =>
            if d =? 10 then 32 :: replace_newlines true t'
            else 13 :: replace_newlines false t
        | [] => [13]
        end
      else c :: replace_newlines false t
  end.

(** [.replace(/\s+/g, " ")]: every maximal run of [\s] code units becomes
    one space; [in_run] is true inside a match. *)
Fixpoint collapse_ws (in_run : bool) (s : jsstr) : jsstr :=
  match s with
  | [] => []
  | c :: t =>
      if is_ws c then
        (if in_run then collapse_ws true t else 32 :: collapse_ws true t)
      else c :: collapse_ws false t
  end.

(** [.replace(/\u00A0/g, " ")]. *)
Definition replace_nbsp (s : jsstr) : jsstr :=
  map (fun c => if c =? 160 then 32 else c) s.

(** Dropping leading [\s] code units. *)
Fixpoint drop_ws (s : jsstr) : jsstr :=
  match s with
  | [] => []
  | c :: t => if is_ws c then drop_ws t else s
  end.

(** [.trim()]. *)
Definition trim (s : jsstr) : jsstr := rev (drop_ws (rev (drop_ws s))).

(** [normalizeText(s)]; the argument is a [string] at every call site, so
    [(s ?? "")] is [s]. *)
Definition normalizeText (s : jsstr) : jsstr :=
  trim (replace_nbsp (collapse_ws false (replace_newlines false s))).

(** Properties of canonical text: every whitespace code unit is an
    ordinary space, no two whitespace code units are adjacent, and the text
    neither starts nor ends with whitespace. *)
Fixpoint no_adjacent_ws (s : jsstr) : bool :=
  match s with
  | c :: ((d :: _) as t) => negb (is_ws c && is_ws d) && no_adjacent_ws t
  | _ => true
  end.

Definition only_space_ws (s : jsstr) : bool :=
  forallb (fun c => negb (is_ws c) || (c =? 32)) s.

Definition starts_ws (s : jsstr) : bool :=
  match s with c :: _ => is_ws c | [] => false end.

Definition ends_ws (s : jsstr) : bool := starts_ws (rev s).

Definition canonical (s : jsstr) : bool :=
  only_space_ws s && no_adjacent_ws s && negb (starts_ws s) && negb (ends_ws s).

(** ** Records (src/types.ts) *)

(** [Omit<Course, "hash">]. *)
Record CourseBase := {
  b_id : jsstr;
  b_title : jsstr;
  b_instructor : jsstr;
  b_term : jsstr;
  b_dayPeriod : jsstr;
  b_room : option jsstr;
  b_updatedAt : option jsstr;
  b_bodyText : jsstr;
  b_detailUrl : jsstr
}.

(** [Course]; [room] and [updatedAt] are optional fields. *)
Record Course := {
  id : jsstr;
  title : jsstr;
  instructor : jsstr;
  term : jsstr;
  dayPeriod : jsstr;
  room : option jsstr;
  updatedAt : option jsstr;
  bodyText : jsstr;
  detailUrl : jsstr;
  hash : jsstr
}.

(** [{ ...base, hash }]. *)
Definition with_hash (b : CourseBase) (h : jsstr) : Course :=
  {| id := b_id b; title := b_title b; instructor := b_instructor b;
     term := b_term b; dayPeriod := b_dayPeriod b; room := b_room b;
     updatedAt := b_updatedAt b; bodyText := b_bodyText b;
     detailUrl := b_detailUrl b; hash := h |}.

(** [DiffResult]. *)
Record DiffResult := {
  added : list Course;
  changed : list (Course * Course);
  removed : list Course
}.

(** [x ?? ""] on an optional string field. *)
Definition or_empty (o : option jsstr) : jsstr :=
  match o with Some s => s | None => [] end.

(** [arr.join(sep)]. *)
Fixpoint join (sep : jsstr) (l : list jsstr) : jsstr :=
  match l with
  | [] => []
  | [x] => x
  | x :: t => x ++ sep ++ join sep t
  end.

(** The string ["|"]. *)
Definition pipe : jsstr := [124].

(** The seven fields that enter the fingerprint, in the order of
    [makeHash]. *)
Definition hash_fields (b : CourseBase) : list jsstr :=
  [b_title b; b_instructor b; b_term b; b_dayPeriod b; or_empty (b_room b);
   or_empty (b_updatedAt b); b_bodyText b].

(** The key hashed by [makeHash]. *)
Definition hash_key (b : CourseBase) : jsstr :=
  join pipe (map normalizeText (hash_fields b)).

(** ** JavaScript [Map]s

    A [Map] is its list of entries in insertion order; its keys are
    distinct. *)
Definition jsmap (K V : Type) := list (K * V).

Section Maps.
Context {K V : Type} (keqb : K -> K -> bool).

(** [m.get(k)]. *)
Fixpoint map_get (m : jsmap K V) (k : K) : option V :=
  match m with
  | [] => None
  | (k', v) :: t => if keqb k' k then Some v else map_get t k
  end.

(** [m.has(k)]. *)
Definition map_has (m : jsmap K V) (k : K) : bool :=
  match map_get m k with Some _ => true | None => false end.

(** [m.set(k, v)]: an existing key keeps its position and gets the new
    value; a new key is appended. *)
Fixpoint map_set (m : jsmap K V) (k : K) (v : V) : jsmap K V :=
  match m with
  | [] => [(k, v)]
  | (k', v') :: t =>
      if keqb k' k then (k', v) :: t else (k', v') :: map_set t k v
  end.

(** [new Map(entries)]. *)
Definition map_of_entries (l : list (K * V)) : jsmap K V :=
  fold_left (fun m '(k, v) => map_set m k v) l [].
End Maps.

(** The keys of a map. *)
Definition keys {K V : Type} (m : jsmap K V) : list K := map fst m.

(** A snapshot: [Map<string, Course>]. *)
Definition Snapshot := jsmap jsstr Course.

(** ** [compareCourses] (src/utils.ts) *)

(** The first loop, over [curr.entries()], with the arrays [added] and
    [changed] as accumulators ([push] appends). *)
Fixpoint compare_curr (prev : Snapshot) (entries : list (jsstr * Course))
    (acc_added : list Course) (acc_changed : list (Course * Course))
    : list Course * list (Course * Course) :=
  match entries with
  | [] => (acc_added, acc_changed)
  | (k, c) :: t =>
      match map_get jsstr_eqb prev k with
      | None => compare_curr prev t (acc_added ++ [c]) acc_changed
      | Some p =>
          if negb (jsstr_eqb (hash p) (hash c))
          then compare_curr prev t acc_added (acc_changed ++ [(p, c)])
          else compare_curr prev t acc_added acc_changed
      end
  end.

(** The second loop, over [prev.entries()]. *)
Fixpoint compare_prev (curr : Snapshot) (entries : list (jsstr * Course))
    (acc_removed : list Course) : list Course :=
  match entries with
  | [] => acc_removed
  | (k, p) :: t =>
      if negb (map_has jsstr_eqb curr k)
      then compare_prev curr t (acc_removed ++ [p])
      else compare_prev curr t acc_removed
  end.

Definition compareCourses (prev curr : Snapshot) : DiffResult :=
  let '(a, c) := compare_curr prev curr [] [] in
  {| added := a; changed := c; removed := compare_prev curr prev [] |}.

(** Ids present in both snapshots with equal fingerprints, in the order of
    [curr]. *)
Definition unchanged_ids (prev curr : Snapshot) : list jsstr :=
  map fst (filter (fun '(k, c) =>
    match map_get jsstr_eqb prev k with
    | Some p => jsstr_eqb (hash p) (hash c)
    | None => false
    end) curr).

(** A snapshot as the program builds it: each record is stored under its
    own [id]. *)
Definition keyed_by_id (m : Snapshot) : Prop :=
  Forall (fun '(k, c) => k = id c) m.

(** ** JSON values and the persisted snapshot (src/storage.ts) *)

From Stdlib Require Import String Ascii.
#[local] Set Warnings "-register-all".

(** A string literal of the source, as UTF-16 code units (ASCII only). *)
Definition lit (s : string) : jsstr :=
  map (fun a => Z.of_nat (nat_of_ascii a)) (list_ascii_of_string s).

(** JSON values as [JSON.parse] produces them (numbers are integral here;
    the object fields are those of the text, in order). *)
Inductive json :=
| JNull
| JBool (b : bool)
| JNum (n : Z)
| JStr (s : jsstr)
| JArr (l : list json)
| JObj (fs : list (jsstr * json)).

(** [o[name]] on the fields of an object. *)
Fixpoint field (fs : list (jsstr * json)) (name : jsstr) : option json :=
  match fs with
  | [] => None
  | (n, v) :: t => if jsstr_eqb n name then Some v else field t name
  end.

(** Keys of the [Map] built by [loadPrev]: the JavaScript value of [c.id].
    Primitive values compare by value; an object or array parsed from the
    file is a fresh reference, identified by the position of the element it
    was read from. *)
Inductive mkey :=
| KUndef
| KNull
| KBool (b : bool)
| KNum (n : Z)
| KStr (s : jsstr)
| KRef (pos : nat).

(** SameValueZero on map keys. *)
Definition mkey_eqb (a b : mkey) : bool :=
  match a, b with
  | KUndef, KUndef | KNull, KNull => true
  | KBool x, KBool y => Bool.eqb x y
  | KNum x, KNum y => Z.eqb x y
  | KStr x, KStr y => jsstr_eqb x y
  | KRef x, KRef y => Nat.eqb x y
  | _, _ => false
  end.

Definition key_of_value (pos : nat) (v : json) : mkey :=
  match v with
  | JNull => KNull
  | JBool b => KBool b
  | JNum n => KNum n
  | JStr s => KStr s
  | JArr _ | JObj _ => KRef pos
  end.

(** [c.id] on the element at position [pos]: [None] when the access throws
    (the element is [null]); primitives and arrays have no [id] property. *)
Definition elem_id (pos : nat) (c : json) : option mkey :=
  match c with
  | JNull => None
  | JObj fs =>
      Some (match field fs (lit "id") with
            | Some v => key_of_value pos v
            | None => KUndef
            end)
  | _ => Some KUndef
  end.

(** [arr.map(c => [c.id, c])]: the first throwing element aborts. *)
Fixpoint id_entries (pos : nat) (arr : list json) : option (list (mkey * json)) :=
  match arr with
  | [] => Some []
  | c :: t =>
      match elem_id pos c with
      | None => None
      | Some k =>
          match id_entries (S pos) t with
          | None => None
          | Some es => Some ((k, c) :: es)
          end
      end
  end.

(** The serialized form of a [Course] ([JSON.stringify] omits an absent
    optional field). *)
Definition course_to_json (c : Course) : json :=
  JObj ([(lit "id", JStr (id c)); (lit "title", JStr (title c));
         (lit "instructor", JStr (instructor c)); (lit "term", JStr (term c));
         (lit "dayPeriod", JStr (dayPeriod c))]
        ++ match room c with Some r => [(lit "room", JStr r)] | None => [] end
        ++ match updatedAt c with Some u => [(lit "updatedAt", JStr u)] | None => [] end
        ++ [(lit "bodyText", JStr (bodyText c)); (lit "detailUrl", JStr (detailUrl c));
            (lit "hash", JStr (hash c))]).

(** Reading the fields of a loaded object as a [Course]. *)
Definition str_field (fs : list (jsstr * json)) (name : string) : option jsstr :=
  match field fs (lit name) with Some (JStr s) => Some s | _ => None end.

Definition opt_str_field (fs : list (jsstr * json)) (name : string)
    : option (option jsstr) :=
  match field fs (lit name) with
  | None => Some None
  | Some (JStr s) => Some (Some s)
  | Some _ => None
  end.

Definition course_of_json (j : json) : option Course :=
  match j with
  | JObj fs =>
      match str_field fs "id", str_field fs "title", str_field fs "instructor",
            str_field fs "term", str_field fs "dayPeriod",
            opt_str_field fs "room", opt_str_field fs "updatedAt",
            str_field fs "bodyText", str_field fs "detailUrl",
            str_field fs "hash" with
      | Some i, Some t, Some ins, Some te, Some dp, Some r, Some u,
        Some bt, Some du, Some h =>
          Some {| id := i; title := t; instructor := ins; term := te;
                  dayPeriod := dp; room := r; updatedAt := u; bodyText := bt;
                  detailUrl := du; hash := h |}
      | _, _, _, _, _, _, _, _, _, _ => None
      end
  | _ => None
  end.

Section Storage.
(** The text of a file, [JSON.parse] and [JSON.stringify]. *)
Variable text : Type.
Variable json_parse : text -> option json.
Variable json_stringify : json -> text.

(** The file system: the text of the file at each path, if any. *)
Definition FS := jsstr -> option text.

(** [loadPrev(filePath)]: every exception of the [try] block (reading,
    parsing, [arr.map] on a non-array, [c.id] on [null]) is caught and
    yields [new Map()]. *)
Definition loadPrev (fs : FS) (filePath : jsstr) : jsmap mkey json :=
  match fs filePath with
  | None => []
  | Some raw =>
      match json_parse raw with
      | Some (JArr arr) =>
          match id_entries 0 arr with
          | Some es => map_of_entries mkey_eqb es
          | None => []
          end
      | _ => []
      end
  end.

(** [saveCurr(filePath, courses)]: the file now holds the serialized
    array (the parent directory is created when missing). *)
Definition saveCurr (fs : FS) (filePath : jsstr) (courses : list Course) : FS :=
  fun p => if jsstr_eqb p filePath
           then Some (json_stringify (JArr (map course_to_json courses)))
           else fs p.
End Storage.

(** The entry of the last course of [cs] with id [k], in serialized form. *)
Definition last_with_id (cs : list Course) (k : jsstr) : option json :=
  fold_left (fun acc c => if jsstr_eqb (id c) k then Some (course_to_json c) else acc)
    cs None.

(** ** The detail fetch and the worker pool (scraper entry point) *)

(** A row of the result list: [{ id, title, url, instructor, term, dayPeriod }]. *)
Record Stub := {
  s_id : jsstr;
  s_title : jsstr;
  s_url : jsstr;
  s_instructor : jsstr;
  s_term : jsstr;
  s_dayPeriod : jsstr
}.

(** What the detail page yields: [{ bodyText, updatedAt, room }]. *)
Record Detail := {
  d_bodyText : jsstr;
  d_updatedAt : jsstr;
  d_room : jsstr
}.

(** The state of one asynchronous [worker()]: about to test the loop
    condition, inside [fetchDetail] for a queue index, or returned. *)
Inductive wstate :=
| WIdle
| WBusy (idx : nat)
| WDone.

(** The shared state of the pool: the index [i], the workers, the array
    [courses] and, for the proofs, the indices taken so far in order. *)
Record Pool := {
  next : nat;
  workers : list wstate;
  courses : list Course;
  taken : list nat
}.

(** Replacing the element at position [k] ([workers[k] = x]). *)
Fixpoint upd {A : Type} (l : list A) (k : nat) (x : A) : list A :=
  match l, k with
  | [], _ => []
  | _ :: t, O => x :: t
  | y :: t, S k' => y :: upd t k' x
  end.

Definition MAX_CONCURRENCY : nat := 3.

Section Pipeline.
(** [crypto.createHash("sha256").update(key).digest("hex")]. *)
Variable sha256_hex : jsstr -> jsstr.
(** [new URL(url).searchParams.get("id")]: [None] when the constructor
    throws, [Some None] when the parameter is absent ([null]). *)
Variable url_id_param : jsstr -> option (option jsstr).
(** Opening the detail page of a stub and evaluating the extraction
    script: [None] when any of these steps throws. *)
Variable fetch_page : Stub -> option Detail.

(** [makeHash(course)]. *)
Definition makeHash (b : CourseBase) : jsstr := sha256_hex (hash_key b).

(** [idFromUrl]. *)
Definition idFromUrl (url : jsstr) : jsstr :=
  match url_id_param url with
  | Some (Some v) => js_or v url
  | Some None => url
  | None => url
  end.

(** [item.id || idFromUrl]. *)
Definition resolve_id (item : Stub) : jsstr :=
  js_or (s_id item) (idFromUrl (s_url item)).

(** [base] in [fetchDetail]. *)
Definition base_of (item : Stub) (d : Detail) : CourseBase :=
  {| b_id := resolve_id item;
     b_title := normalizeText (s_title item);
     b_instructor := normalizeText (s_instructor item);
     b_term := normalizeText (s_term item);
     b_dayPeriod := normalizeText (s_dayPeriod item);
     b_room := Some (normalizeText (d_room d));
     b_updatedAt := Some (normalizeText (d_updatedAt d));
     b_bodyText := normalizeText (d_bodyText d);
     b_detailUrl := s_url item |}.

(** [fetchDetail(item)]: the record it pushes, if any; an exception in the
    [try] block is logged and nothing is pushed. *)
Definition fetchDetail (item : Stub) : option Course :=
  match fetch_page item with
  | None => None
  | Some d => let b := base_of item d in Some (with_hash b (makeHash b))
  end.

Definition opt_list {A : Type} (o : option A) : list A :=
  match o with Some x => [x] | None => [] end.

(** One step of one worker [k] of the pool draining [queue]. *)
Inductive pool_step (queue : list Stub) : Pool -> Pool -> Prop :=
| step_take : forall s k,
    nth_error (workers s) k = Some WIdle ->
    (next s < List.length queue)%nat ->
    pool_step queue s
      {| next := S (next s); workers := upd (workers s) k (WBusy (next s));
         courses := courses s; taken := taken s ++ [next s] |}
| step_exit : forall s k,
    nth_error (workers s) k = Some WIdle ->
    (List.length queue <= next s)%nat ->
    pool_step queue s
      {| next := next s; workers := upd (workers s) k WDone;
         courses := courses s; taken := taken s |}
| step_fetch : forall s k idx,
    nth_error (workers s) k = Some (WBusy idx) ->
    pool_step queue s
      {| next := next s; workers := upd (workers s) k WIdle;
         courses := courses s ++
           match nth_error queue idx with
           | Some it => opt_list (fetchDetail it)
           | None => []
           end;
         taken := taken s |}.

(** Reflexive-transitive closure of [pool_step]. *)
Inductive pool_steps (queue : list Stub) : Pool -> Pool -> Prop :=
| steps_refl : forall s, pool_steps queue s s
| steps_cons : forall s1 s2 s3,
    pool_step queue s1 s2 -> pool_steps queue s2 s3 -> pool_steps queue s1 s3.

(** The pool as started: [Math.min(MAX_CONCURRENCY, queue.length)] idle
    workers, [i = 0], [courses = []]. *)
Definition pool_init (queue : list Stub) : Pool :=
  {| next := 0; workers := repeat WIdle (Nat.min MAX_CONCURRENCY (List.length queue));
     courses := []; taken := [] |}.

(** [await Promise.all(workers)] has returned. *)
Definition pool_finished (s : Pool) : Prop := Forall (fun w => w = WDone) (workers s).

(** The records of the stubs whose fetch succeeds, in queue order. *)
Definition successes (queue : list Stub) : list Course :=
  flat_map (fun it => opt_list (fetchDetail it)) queue.

(** Number of stubs whose detail fetch fails. *)
Definition failures (queue : list Stub) : nat :=
  List.length (filter (fun it => match fetch_page it with None => true | Some _ => false end) queue).
(** The record a worker will push when its current [fetchDetail] returns. *)
Definition busy_output (queue : list Stub) (w : wstate) : list Course :=
  match w with
  | WBusy idx =>
      match nth_error queue idx with Some it => opt_list (fetchDetail it) | None => [] end
  | _ => []
  end.

Definition pending (queue : list Stub) (ws : list wstate) : list Course :=
  flat_map (busy_output queue) ws.

(** A bound on the remaining steps: three per untaken index, two per busy
    worker and one per idle worker. *)
Definition wcost (w : wstate) : nat :=
  match w with WIdle => 1 | WBusy _ => 2 | WDone => 0 end.

Definition pool_measure (queue : list Stub) (s : Pool) : nat :=
  3 * (List.length queue - next s) + list_sum (map wcost (workers s)).
(** The invariant of the pool: the records pushed so far together with
    those of the fetches in progress are those of the indices taken, and
    the indices are taken in order, each once. *)
Definition pool_inv (queue : list Stub) (s : Pool) : Prop :=
  (next s <= List.length queue)%nat /\
  taken s = seq 0 (next s) /\
  Permutation (courses s ++ pending queue (workers s))
    (flat_map (fun it => opt_list (fetchDetail it)) (firstn (next s) queue)) /\
  List.length (workers s) = Nat.min MAX_CONCURRENCY (List.length queue) /\
  (In WDone (workers s) -> (List.length queue <= next s)%nat).
End Pipeline.

(** ** Concrete platform instances used to evaluate the embedding *)

(** A small model of [new URL(u).searchParams.get("id")] for absolute
    [http]/[https] locators without percent-escapes: the query is the text
    between the first [?] and the first [#]; its parameters are separated by
    [&]; a name ends at its first [=]. *)
Fixpoint split_on (sep : Z) (s : jsstr) : list jsstr :=
  match s with
  | [] => [[]]
  | c :: t =>
      if c =? sep then [] :: split_on sep t
      else match split_on sep t with
           | [] => [[c]]
           | w :: ws => (c :: w) :: ws
           end
  end.

Fixpoint after_first (sep : Z) (s : jsstr) : option jsstr :=
  match s with
  | [] => None
  | c :: t => if c =? sep then Some t else after_first sep t
  end.

Fixpoint before_first (sep : Z) (s : jsstr) : jsstr :=
  match s with
  | [] => []
  | c :: t => if c =? sep then [] else c :: before_first sep t
  end.

Fixpoint is_prefix (p s : jsstr) : bool :=
  match p, s with
  | [], _ => true
  | x :: p', y :: s' => (x =? y) && is_prefix p' s'
  | _ :: _, [] => false
  end.

Definition param_name (kv : jsstr) : jsstr := before_first 61 kv.
Definition param_value (kv : jsstr) : jsstr :=
  match after_first 61 kv with Some v => v | None => [] end.

Definition simple_url_id_param (u : jsstr) : option (option jsstr) :=
  if is_prefix (lit "https://") u || is_prefix (lit "http://") u then
    match after_first 63 (before_first 35 u) with
    | None => Some None
    | Some q =>
        Some (match filter (fun kv => jsstr_eqb (param_name kv) (lit "id")) (split_on 38 q) with
              | kv :: _ => Some (param_value kv)
              | [] => None
              end)
    end
  else None.

(** A stub whose list row has no course code and whose detail locator
    carries an empty [id] parameter. *)
Definition stub_empty_id_param : Stub :=
  {| s_id := []; s_title := lit "T"; s_url := lit "https://example.com/s?id=";
     s_instructor := []; s_term := []; s_dayPeriod := [] |}.

(** Two records sharing the id ["A"]. *)
Definition course_A (t : string) : Course :=
  {| id := lit "A"; title := lit t; instructor := []; term := []; dayPeriod := [];
     room := None; updatedAt := None; bodyText := []; detailUrl := [];
     hash := lit t |}.

(** The file system where no file exists. *)
Definition empty_fs {text : Type} : FS text := fun _ => None.

(** Records with an id and a fingerprint only. *)
Definition ex_course (i h : string) : Course :=
  {| id := lit i; title := []; instructor := []; term := []; dayPeriod := [];
     room := None; updatedAt := None; bodyText := []; detailUrl := []; hash := lit h |}.

(** previous = {"C1": fp "a"}, current = {"C1": fp "a", "C2": fp "b"}. *)
Definition ex_prev : Snapshot := [(lit "C1", ex_course "C1" "a")].
Definition ex_curr : Snapshot :=
  [(lit "C1", ex_course "C1" "a"); (lit "C2", ex_course "C2" "b")].

(** Two records that differ only in whitespace. *)
Definition ex_base (t : jsstr) : CourseBase :=
  {| b_id := lit "X1"; b_title := t; b_instructor := lit "Sato";
     b_term := lit "Spring"; b_dayPeriod := lit "Mon 1"; b_room := None;
     b_updatedAt := Some (lit "2025-04-01"); b_bodyText := lit "Intro";
     b_detailUrl := lit "https://example.com/s?id=X1" |}.
Definition ex_title1 : jsstr := lit "Data" ++ [10; 160] ++ lit "Science".
Definition ex_title2 : jsstr := lit " Data Science ".

(** Seven stubs; the detail fetch of the second and the fifth fails. *)
Definition ex_stub (n : nat) : Stub :=
  {| s_id := [Z.of_nat n]; s_title := lit "T"; s_url := lit "https://example.com/s";
     s_instructor := []; s_term := []; s_dayPeriod := [] |}.
Definition ex_queue : list Stub := map ex_stub (seq 1 7).
Definition ex_fetch (st : Stub) : option Detail :=
  if jsstr_eqb (s_id st) [2] || jsstr_eqb (s_id st) [5] then None
  else Some {| d_bodyText := lit "body"; d_updatedAt := []; d_room := [] |}.

(** A stub without a course code whose locator has a non-empty [id]. *)
Definition stub_with_id_param : Stub :=
  {| s_id := []; s_title := lit "T"; s_url := lit "https://example.com/s?id=42";
     s_instructor := []; s_term := []; s_dayPeriod := [] |}.

(** Whether a parsed value is an array. *)
Definition is_array (j : json) : bool :=
  match j with JArr _ => true | _ => false end.

(** Exactly one of the propositions holds. *)
Fixpoint exactly_one (ps : list Prop) : Prop :=
  match ps with
  | [] => False
  | p :: t => (p /\ Forall (fun q => ~ q) t) \/ (~ p /\ exactly_one t)
  end.

(** ** The static page ([src/build-html.ts]) *)

(** [.replace(/c/g, r)] for a pattern of one code unit [c]. *)
Definition replace_all_unit (c : Z) (r : jsstr) (s : jsstr) : jsstr :=
  flat_map (fun x => if x =? c then r else [x]) s.

(** [escapeHtml(s)]: [&], then [<], then [>]. *)
Definition escapeHtml (s : jsstr) : jsstr :=
  replace_all_unit 62 (lit "&gt;")
    (replace_all_unit 60 (lit "&lt;") (replace_all_unit 38 (lit "&amp;") s)).

(** A line feed and a double quote. *)
Definition nl : jsstr := [10].
Definition dq : jsstr := [34].

(** The template literal of [arr.map(c => ...)] in [main], for one record. *)
Definition row_html (c : Course) : jsstr :=
  nl ++ lit "    <tr>" ++ nl ++
  lit "      <td>" ++ escapeHtml (id c) ++ lit "</td>" ++ nl ++
  lit "      <td><a href=" ++ dq ++ escapeHtml (detailUrl c) ++ dq ++
    lit " target=" ++ dq ++ lit "_blank" ++ dq ++ lit " rel=" ++ dq ++ lit "noopener" ++ dq ++
    lit ">" ++ escapeHtml (title c) ++ lit "</a></td>" ++ nl ++
  lit "      <td>" ++ escapeHtml (instructor c) ++ lit "</td>" ++ nl ++
  lit "      <td>" ++ escapeHtml (term c) ++ lit "</td>" ++ nl ++
  lit "      <td>" ++ escapeHtml (dayPeriod c) ++ lit "</td>" ++ nl ++
  lit "      <td>" ++ escapeHtml (or_empty (room c)) ++ lit "</td>" ++ nl ++
  lit "      <td>" ++ escapeHtml (or_empty (updatedAt c)) ++ lit "</td>" ++ nl ++
  lit "    </tr>" ++ nl ++ lit "  ".

(** [rows]: the rows joined with [""]. *)
Definition rows_html (arr : list Course) : jsstr := join [] (map row_html arr).

(** Number of occurrences of a code unit. *)
Definition count_unit (c : Z) (s : jsstr) : nat := List.length (filter (Z.eqb c) s).

(** ** The Slack notification ([src/notify.ts]) *)

(** [`${n}`] for a length [n]: its decimal digits. *)
Fixpoint uint_units (u : Decimal.uint) : jsstr :=
  match u with
  | Decimal.Nil => []
  | Decimal.D0 u => 48 :: uint_units u
  | Decimal.D1 u => 49 :: uint_units u
  | Decimal.D2 u => 50 :: uint_units u
  | Decimal.D3 u => 51 :: uint_units u
  | Decimal.D4 u => 52 :: uint_units u
  | Decimal.D5 u => 53 :: uint_units u
  | Decimal.D6 u => 54 :: uint_units u
  | Decimal.D7 u => 55 :: uint_units u
  | Decimal.D8 u => 56 :: uint_units u
  | Decimal.D9 u => 57 :: uint_units u
  end.

Definition num_str (n : nat) : jsstr := uint_units (Nat.to_uint n).

(** The Japanese literals of the message, as code units: the headers
    (U+8FFD U+52A0, U+66F4 U+65B0, U+524A U+9664), the counter word
    U+4EF6, the fallback text U+5DEE U+5206 U+306A U+3057, the placeholder
    U+4E0D U+660E, the labels U+66F4 U+65B0 U+65E5 and U+8A73 U+7D30, and the
    bullet U+2022. *)
Definition hdr_added : jsstr := [36861; 21152] ++ lit ": ".
Definition hdr_changed : jsstr := [26356; 26032] ++ lit ": ".
Definition hdr_removed : jsstr := [21066; 38500] ++ lit ": ".
Definition ken : jsstr := [20214].
Definition no_diff_text : jsstr := [24046; 20998; 12394; 12375].
Definition unknown_text : jsstr := [19981; 26126].
Definition lbl_updated : jsstr := [26356; 26032; 26085] ++ lit ": ".
Definition lbl_detail : jsstr := [35443; 32048] ++ lit ": ".
Definition bullet : jsstr := [8226].

(** The item lines of the three lists. *)
Definition line_added (c : Course) : jsstr :=
  bullet ++ lit " [" ++ id c ++ lit "] " ++ title c ++ lit " (" ++ instructor c ++ lit ") "
  ++ term c ++ lit " " ++ dayPeriod c.

Definition line_changed (after : Course) : jsstr :=
  bullet ++ lit " [" ++ id after ++ lit "] " ++ title after ++ lit " (" ++ instructor after
  ++ lit ") " ++ lbl_updated
  ++ match updatedAt after with Some u => u | None => unknown_text end
  ++ lit " " ++ lbl_detail ++ detailUrl after.

Definition line_removed (c : Course) : jsstr :=
  bullet ++ lit " [" ++ id c ++ lit "] " ++ title c.

(** The array [lines] of [notifySlack]. *)
Definition notify_lines (d : DiffResult) : list jsstr :=
  match added d with
  | [] => []
  | a => (hdr_added ++ num_str (List.length a) ++ ken) :: map line_added (firstn 10 a)
  end ++
  match changed d with
  | [] => []
  | ch => (hdr_changed ++ num_str (List.length ch) ++ ken)
            :: map (fun '(_, after) => line_changed after) (firstn 10 ch)
  end ++
  match removed d with
  | [] => []
  | r => (hdr_removed ++ num_str (List.length r) ++ ken) :: map line_removed (firstn 5 r)
  end.

(** [lines.join("\n") || fallback], the fallback being [no_diff_text]. *)
Definition notify_text (d : DiffResult) : jsstr := js_or (join nl (notify_lines d)) no_diff_text.

(** The request [notifySlack(webhook, diffs)] sends, if any: locator,
    method, content type and body. *)
Definition notifySlack {text : Type} (json_stringify : json -> text) (webhook : jsstr)
    (d : DiffResult) : option (jsstr * jsstr * jsstr * text) :=
  match webhook with
  | [] => None
  | _ => Some (webhook, lit "POST", lit "application/json",
               json_stringify (JObj [(lit "text", JStr (notify_text d))]))
  end.

(** ** The current snapshot built by [main] *)

(** [new Map(currArr.map(c => [c.id, c]))]. *)
Definition snapshot_of (arr : list Course) : Snapshot :=
  map_of_entries jsstr_eqb (map (fun c => (id c, c)) arr).

(** ** The list extraction of the earlier scraper ([src/storage.ts]) *)

(** A table cell: its [textContent] and, if it has one, the [textContent]
    and [href] of its first anchor. *)
Record Cell := {
  cell_text : jsstr;
  cell_anchor : option (jsstr * jsstr)
}.

(** The seven alternatives of the term regular expression, in order:
    U+901A U+5E74, U+524D U+671F, U+5F8C U+671F and the full-width digits
    U+FF11 to U+FF14 followed by U+5B66 U+671F. *)
Definition term_keywords : list jsstr :=
  [[36890; 24180]; [21069; 26399]; [24460; 26399];
   [65297; 23398; 26399]; [65298; 23398; 26399]; [65299; 23398; 26399];
   [65300; 23398; 26399]].

(** The first alternative, in order, that matches at the start of [s]. *)
Fixpoint first_alternative (alts : list jsstr) (s : jsstr) : option jsstr :=
  match alts with
  | [] => None
  | a :: t => if is_prefix a s then Some a else first_alternative t s
  end.

(** [schedule.match(re)?.[1]]: the leftmost match, tried position by
    position. *)
Fixpoint match_term (s : jsstr) : option jsstr :=
  match first_alternative term_keywords s with
  | Some a => Some a
  | None => match s with [] => None | _ :: t => match_term t end
  end.

(** [s.replace(pat, "")] with a string pattern: the first occurrence of
    [pat] is removed (the empty pattern occurs at position 0). *)
Fixpoint replace_first (pat s : jsstr) {struct s} : jsstr :=
  if is_prefix pat s then skipn (List.length pat) s
  else match s with [] => [] | c :: t => c :: replace_first pat t end.

(** [term] and [dayPeriod] of a row. *)
Definition split_schedule (schedule : jsstr) : jsstr * jsstr :=
  let term := match match_term schedule with Some t => t | None => [] end in
  (term, trim (replace_first term schedule)).

(** The body of the loop over [rows]: the stub it pushes, if any. *)
Definition extract_row (tds : list Cell) : option Stub :=
  match tds with
  | _ :: c1 :: c2 :: c3 :: c4 :: _ =>
      let code := trim (cell_text c1) in
      let title := trim (match cell_anchor c2 with
                         | Some (t, _) => js_or t (cell_text c2)
                         | None => cell_text c2
                         end) in
      let url := match cell_anchor c2 with Some (_, h) => h | None => [] end in
      let schedule := trim (cell_text c3) in
      let instructor := trim (cell_text c4) in
      let '(term, dayPeriod) := split_schedule schedule in
      match code, url with
      | _ :: _, _ :: _ =>
          Some {| s_id := code; s_title := title; s_url := url;
                  s_instructor := instructor; s_term := term; s_dayPeriod := dayPeriod |}
      | _, _ => None
      end
  | _ => None
  end.

(** [arr] after the loop over the table rows. *)
Definition extract_rows (rows : list (list Cell)) : list Stub :=
  flat_map (fun r => opt_list (extract_row r)) rows.

(** ** The worker pool of the earlier scraper ([src/storage.ts])

    Its workers [shift()] stubs from a shared copy of the list.  Its
    detail fetch is the same code as the one of the scraper entry point,
    [fetchDetail] above, apart from the delay that follows it. *)

(** A worker: about to test [queue.length], inside [fetchDetail] for a
    stub, or returned. *)
Inductive qstate :=
| QIdle
| QBusy (it : Stub)
| QDone.

Record QPool := {
  queue_left : list Stub;
  qworkers : list qstate;
  qcourses : list Course
}.

(** The loop that starts the workers.  A worker runs synchronously up to
    its first [await], inside [fetchDetail]: it has already shifted its
    first stub when the loop condition, which reads [queue.length] again,
    is next tested.  The condition fails once [w] reaches
    [MAX_CONCURRENCY], so [MAX_CONCURRENCY] rounds suffice. *)
Fixpoint spawn (fuel w : nat) (q : list Stub) : list qstate * list Stub :=
  match fuel with
  | O => ([], q)
  | S f =>
      if (w <? Nat.min MAX_CONCURRENCY (List.length q))%nat then
        match q with
        | it :: rest => let '(ws, q') := spawn f (S w) rest in (QBusy it :: ws, q')
        | [] => ([], q)
        end
      else ([], q)
  end.

Definition qpool_init (queue : list Stub) : QPool :=
  let '(ws, q) := spawn MAX_CONCURRENCY 0 queue in
  {| queue_left := q; qworkers := ws; qcourses := [] |}.

Definition qpool_finished (s : QPool) : Prop := Forall (fun w => w = QDone) (qworkers s).

Definition qcost (w : qstate) : nat :=
  match w with QIdle => 1 | QBusy _ => 2 | QDone => 0 end.

Definition qpool_measure (s : QPool) : nat :=
  3 * List.length (queue_left s) + list_sum (map qcost (qworkers s)).

Section ShiftPool.
Variable sha256_hex : jsstr -> jsstr.
Variable url_id_param : jsstr -> option (option jsstr).
Variable fetch_page : Stub -> option Detail.

(** One step of one worker [k]. *)
Inductive qpool_step : QPool -> QPool -> Prop :=
| qstep_take : forall s k it rest,
    nth_error (qworkers s) k = Some QIdle -> queue_left s = it :: rest ->
    qpool_step s {| queue_left := rest; qworkers := upd (qworkers s) k (QBusy it);
                    qcourses := qcourses s |}
| qstep_exit : forall s k,
    nth_error (qworkers s) k = Some QIdle -> queue_left s = [] ->
    qpool_step s {| queue_left := []; qworkers := upd (qworkers s) k QDone;
                    qcourses := qcourses s |}
| qstep_fetch : forall s k it,
    nth_error (qworkers s) k = Some (QBusy it) ->
    qpool_step s {| queue_left := queue_left s; qworkers := upd (qworkers s) k QIdle;
                    qcourses := qcourses s ++
                      opt_list (fetchDetail sha256_hex url_id_param fetch_page it) |}.

Inductive qpool_steps : QPool -> QPool -> Prop :=
| qsteps_refl : forall s, qpool_steps s s
| qsteps_cons : forall s1 s2 s3, qpool_step s1 s2 -> qpool_steps s2 s3 -> qpool_steps s1 s3.

Definition qbusy_output (w : qstate) : list Course :=
  match w with
  | QBusy it => opt_list (fetchDetail sha256_hex url_id_param fetch_page it)
  | _ => []
  end.

(** The invariant: records pushed, records of the fetches in progress and
    records of the stubs still queued make up the successes of the list. *)
Definition qpool_inv (queue : list Stub) (s : QPool) : Prop :=
  Permutation (qcourses s ++ flat_map qbusy_output (qworkers s) ++
               successes sha256_hex url_id_param fetch_page (queue_left s))
              (successes sha256_hex url_id_param fetch_page queue) /\
  (In QDone (qworkers s) -> queue_left s = []) /\
  (qworkers s = [] -> queue_left s = []).
End ShiftPool.

(** A record without its fingerprint ([Omit<Course, "hash">]). *)
Definition base_of_course (c : Course) : CourseBase :=
  {| b_id := id c; b_title := title c; b_instructor := instructor c; b_term := term c;
     b_dayPeriod := dayPeriod c; b_room := room c; b_updatedAt := updatedAt c;
     b_bodyText := bodyText c; b_detailUrl := detailUrl c |}.

(** What [escapeHtml] makes of one code unit. *)
Definition esc_unit (x : Z) : jsstr :=
  if x =? 38 then lit "&amp;" else if x =? 60 then lit "&lt;"
  else if x =? 62 then lit "&gt;" else [x].

(** A schedule cell whose term name (U+524D U+671F) follows the day and
    period (U+6708 and the digit one). *)
Definition ex_schedule : jsstr := [26376; 49; 21069; 26399].

(** A table row of the earlier scraper and the stub it yields. *)
Definition ex_cell (t : string) : Cell := {| cell_text := lit t; cell_anchor := None |}.
Definition ex_row : list Cell :=
  [ex_cell "1"; ex_cell " C9 ";
   {| cell_text := lit "Algebra"; cell_anchor := Some (lit "Algebra", lit "https://example.com/d?id=9") |};
   ex_cell "Mon 1"; ex_cell "Sato"].
Definition ex_row_stub : Stub :=
  {| s_id := lit "C9"; s_title := lit "Algebra"; s_url := lit "https://example.com/d?id=9";
     s_instructor := lit "Sato"; s_term := []; s_dayPeriod := lit "Mon 1" |}.

(** A parsed file whose second element is [null]. *)
Definition ex_null_file : json := JArr [course_to_json (course_A "x"); JNull].

(** * Proofs *)

(** ** Canonical text *)

Lemma collapse_replace_newlines_len : forall n s b b',
  (List.length s <= n)%nat -> (b' = true -> b = true) ->
  collapse_ws b (replace_newlines b' s) = collapse_ws b s.
Proof.
  induction n as [|n IH]; intros s b b' Hlen Hb.
  - destruct s; [reflexivity | simpl in Hlen; lia].
  - destruct s as [|c t]; [reflexivity|]. simpl in Hlen.
    simpl replace_newlines.
    destruct (c =? 10) eqn:E10.
    + apply Z.eqb_eq in E10; subst c.
      destruct b'.
      * rewrite (Hb eq_refl). simpl. rewrite IH by (auto; lia). reflexivity.
      * simpl. destruct b; rewrite IH by (auto; lia); reflexivity.
    + destruct (c =? 13) eqn:E13.
      * apply Z.eqb_eq in E13; subst c.
        destruct t as [|d t'].
        -- reflexivity.
        -- destruct (d =? 10) eqn:Ed.
           ++ apply Z.eqb_eq in Ed; subst d. simpl in Hlen.
              simpl. destruct b; rewrite IH by (auto; lia); reflexivity.
           ++ change (collapse_ws b (13 :: replace_newlines false (d :: t'))
                      = collapse_ws b (13 :: d :: t')).
              remember (d :: t') as u eqn:Hu.
              assert (Hl : (List.length u <= n)%nat) by (subst u; simpl in *; lia).
              simpl. destruct b; rewrite IH by (auto; lia); reflexivity.
      * change (collapse_ws b (c :: replace_newlines false t) = collapse_ws b (c :: t)).
        simpl. destruct (is_ws c); [destruct b|]; rewrite IH by (auto; lia); reflexivity.
Qed.

Lemma collapse_replace_newlines : forall s,
  collapse_ws false (replace_newlines false s) = collapse_ws false s.
Proof. intros s. apply (collapse_replace_newlines_len (List.length s)); auto. Qed.

Lemma collapse_no_nbsp : forall s b, ~ In 160 (collapse_ws b s).
Proof.
  induction s as [|c t IH]; intros b; simpl; [tauto|].
  destruct (is_ws c) eqn:W; [destruct b; simpl|simpl].
  - apply IH.
  - intros [H|H]; [discriminate | eapply IH; eauto].
  - intros [H|H]; [subst c; discriminate | eapply IH; eauto].
Qed.

Lemma replace_nbsp_id : forall s, ~ In 160 s -> replace_nbsp s = s.
Proof.
  unfold replace_nbsp. induction s as [|c t IH]; intros H; simpl; [reflexivity|].
  rewrite IH by (intro; apply H; right; auto).
  destruct (c =? 160) eqn:E; [apply Z.eqb_eq in E; subst; exfalso; apply H; left; auto | reflexivity].
Qed.

Lemma normalizeText_eq : forall s, normalizeText s = trim (collapse_ws false s).
Proof.
  intros s. unfold normalizeText. rewrite collapse_replace_newlines.
  rewrite replace_nbsp_id by apply collapse_no_nbsp. reflexivity.
Qed.

Lemma no_adjacent_ws_cons : forall c t,
  no_adjacent_ws (c :: t) = negb (is_ws c && starts_ws t) && no_adjacent_ws t.
Proof. intros c [|d t]; simpl; [destruct (is_ws c)|]; reflexivity. Qed.

Lemma collapse_only_space : forall s b, only_space_ws (collapse_ws b s) = true.
Proof.
  induction s as [|c t IH]; intros b; simpl; [reflexivity|].
  destruct (is_ws c) eqn:W; [destruct b|]; simpl; rewrite ?IH, ?W; reflexivity.
Qed.

Lemma collapse_true_not_start : forall s, starts_ws (collapse_ws true s) = false.
Proof.
  induction s as [|c t IH]; simpl; [reflexivity|].
  destruct (is_ws c) eqn:W; [exact IH | exact W].
Qed.

Lemma collapse_no_adjacent : forall s b, no_adjacent_ws (collapse_ws b s) = true.
Proof.
  induction s as [|c t IH]; intros b; simpl; [reflexivity|].
  destruct (is_ws c) eqn:W; [destruct b|].
  - apply IH.
  - rewrite no_adjacent_ws_cons, collapse_true_not_start, IH. reflexivity.
  - rewrite no_adjacent_ws_cons, W, IH. reflexivity.
Qed.

Lemma drop_ws_suffix : forall s, exists p, s = p ++ drop_ws s.
Proof.
  induction s as [|c t [p Hp]]; simpl; [exists []; reflexivity|].
  destruct (is_ws c); [exists (c :: p); simpl; congruence | exists []; reflexivity].
Qed.

Lemma drop_ws_not_start : forall s, starts_ws (drop_ws s) = false.
Proof.
  induction s as [|c t IH]; simpl; [reflexivity|].
  destruct (is_ws c) eqn:W; [exact IH | exact W].
Qed.

Lemma drop_ws_id : forall s, starts_ws s = false -> drop_ws s = s.
Proof. intros [|c t] H; simpl in *; [reflexivity | rewrite H; reflexivity]. Qed.

Lemma only_space_app : forall a b,
  only_space_ws (a ++ b) = only_space_ws a && only_space_ws b.
Proof. intros. unfold only_space_ws. apply forallb_app. Qed.

Lemma only_space_rev : forall s, only_space_ws (rev s) = only_space_ws s.
Proof.
  induction s as [|c t IH]; simpl; [reflexivity|].
  rewrite only_space_app, IH. simpl. rewrite andb_true_r, andb_comm. reflexivity.
Qed.


Lemma starts_ws_app : forall a b, a <> [] -> starts_ws (a ++ b) = starts_ws a.
Proof. intros [|c t] b H; [congruence | reflexivity]. Qed.

Lemma ends_ws_cons : forall d t, t <> [] -> ends_ws (d :: t) = ends_ws t.
Proof.
  intros d t H. unfold ends_ws. simpl. apply starts_ws_app.
  intro E. apply H. apply (f_equal (@rev Z)) in E. rewrite rev_involutive in E. exact E.
Qed.

Lemma no_adjacent_snoc : forall s c,
  no_adjacent_ws (s ++ [c]) = no_adjacent_ws s && negb (ends_ws s && is_ws c).
Proof.
  induction s as [|d t IH]; intros c; [reflexivity|].
  simpl app. rewrite !no_adjacent_ws_cons, IH.
  destruct t as [|e t'].
  - unfold ends_ws. simpl. destruct (is_ws d), (is_ws c); reflexivity.
  - rewrite starts_ws_app by congruence.
    rewrite (ends_ws_cons d) by congruence.
    rewrite andb_assoc. reflexivity.
Qed.

Lemma ends_ws_rev : forall s, ends_ws (rev s) = starts_ws s.
Proof. intros s. unfold ends_ws. rewrite rev_involutive. reflexivity. Qed.

Lemma no_adjacent_rev : forall s, no_adjacent_ws (rev s) = no_adjacent_ws s.
Proof.
  induction s as [|c t IH]; [reflexivity|].
  simpl rev. rewrite no_adjacent_snoc, IH, ends_ws_rev, no_adjacent_ws_cons.
  destruct (is_ws c), (starts_ws t), (no_adjacent_ws t); reflexivity.
Qed.

Lemma no_adjacent_suffix : forall p s,
  no_adjacent_ws (p ++ s) = true -> no_adjacent_ws s = true.
Proof.
  induction p as [|c t IH]; intros s H; [exact H|].
  simpl app in H. rewrite no_adjacent_ws_cons in H.
  apply andb_prop in H as [_ H]. exact (IH s H).
Qed.

Lemma only_space_suffix : forall p s,
  only_space_ws (p ++ s) = true -> only_space_ws s = true.
Proof.
  intros p s H. rewrite only_space_app in H. apply andb_prop in H. tauto.
Qed.

Lemma trim_only_space : forall s, only_space_ws s = true -> only_space_ws (trim s) = true.
Proof.
  intros s H. unfold trim. rewrite only_space_rev.
  destruct (drop_ws_suffix (rev (drop_ws s))) as [p Hp].
  apply (only_space_suffix p). rewrite <- Hp, only_space_rev.
  destruct (drop_ws_suffix s) as [q Hq].
  apply (only_space_suffix q). rewrite <- Hq. exact H.
Qed.

Lemma trim_no_adjacent : forall s, no_adjacent_ws s = true -> no_adjacent_ws (trim s) = true.
Proof.
  intros s H. unfold trim. rewrite no_adjacent_rev.
  destruct (drop_ws_suffix (rev (drop_ws s))) as [p Hp].
  apply (no_adjacent_suffix p). rewrite <- Hp, no_adjacent_rev.
  destruct (drop_ws_suffix s) as [q Hq].
  apply (no_adjacent_suffix q). rewrite <- Hq. exact H.
Qed.

Lemma trim_not_end : forall s, ends_ws (trim s) = false.
Proof. intros s. unfold trim. rewrite ends_ws_rev. apply drop_ws_not_start. Qed.

Lemma trim_not_start : forall s, starts_ws (trim s) = false.
Proof.
  intros s. unfold trim.
  destruct (drop_ws_suffix (rev (drop_ws s))) as [p Hp].
  assert (E : drop_ws s = rev (drop_ws (rev (drop_ws s))) ++ rev p).
  { rewrite <- rev_app_distr, <- Hp, rev_involutive. reflexivity. }
  destruct (rev (drop_ws (rev (drop_ws s)))) as [|c t] eqn:T; [reflexivity|].
  rewrite <- (drop_ws_not_start s), E. reflexivity.
Qed.

Lemma normalizeText_canonical : forall s, canonical (normalizeText s) = true.
Proof.
  intros s. rewrite normalizeText_eq. unfold canonical.
  rewrite trim_only_space, trim_no_adjacent, trim_not_start, trim_not_end
    by (apply collapse_only_space || apply collapse_no_adjacent).
  reflexivity.
Qed.

Lemma collapse_id : forall s b,
  only_space_ws s = true -> no_adjacent_ws s = true ->
  (b = true -> starts_ws s = false) -> collapse_ws b s = s.
Proof.
  induction s as [|c t IH]; intros b Hs Ha Hb; [reflexivity|].
  simpl in Hs. apply andb_prop in Hs as [Hc Ht].
  rewrite no_adjacent_ws_cons in Ha. apply andb_prop in Ha as [Hct Ha].
  simpl. destruct (is_ws c) eqn:W.
  - apply Z.eqb_eq in Hc. subst c.
    destruct b; [discriminate (Hb eq_refl)|].
    rewrite IH; auto. intros _. destruct (starts_ws t); [discriminate | reflexivity].
  - rewrite IH; auto. discriminate.
Qed.

Lemma trim_id : forall s, starts_ws s = false -> ends_ws s = false -> trim s = s.
Proof.
  intros s H1 H2. unfold trim. rewrite (drop_ws_id s H1).
  rewrite (drop_ws_id (rev s)) by exact H2. apply rev_involutive.
Qed.

Lemma normalizeText_canonical_id : forall s, canonical s = true -> normalizeText s = s.
Proof.
  intros s H. unfold canonical in H.
  apply andb_prop in H as [H H4]. apply andb_prop in H as [H H3].
  apply andb_prop in H as [H1 H2]. apply negb_true_iff in H3, H4.
  rewrite normalizeText_eq, collapse_id by auto. apply trim_id; auto.
Qed.

(** C4: canonicalization is idempotent. *)
Theorem normalizeText_idempotent : forall s,
  normalizeText (normalizeText s) = normalizeText s.
Proof. intros s. apply normalizeText_canonical_id, normalizeText_canonical. Qed.

Lemma only_space_not_in : forall s c,
  only_space_ws s = true -> is_ws c = true -> c <> 32 -> ~ In c s.
Proof.
  intros s c H W N I. unfold only_space_ws in H. rewrite forallb_forall in H.
  specialize (H c I). rewrite W in H. simpl in H. apply Z.eqb_eq in H. lia.
Qed.

(** C9: [normalizeText] replaces every maximal run of [\s] code units
    (line breaks and U+00A0 included) by one ordinary space and trims the
    result; its output has no leading or trailing whitespace, no whitespace
    other than U+0020 (so no line feed, carriage return or U+00A0), and no two
    adjacent spaces. *)
Theorem normalizeText_spec : forall s,
  normalizeText s = trim (collapse_ws false s) /\
  starts_ws (normalizeText s) = false /\ ends_ws (normalizeText s) = false /\
  only_space_ws (normalizeText s) = true /\ no_adjacent_ws (normalizeText s) = true /\
  ~ In 10 (normalizeText s) /\ ~ In 13 (normalizeText s) /\ ~ In 160 (normalizeText s).
Proof.
  intros s. pose proof (normalizeText_canonical s) as H. unfold canonical in H.
  apply andb_prop in H as [H H4]. apply andb_prop in H as [H H3].
  apply andb_prop in H as [H1 H2]. apply negb_true_iff in H3, H4.
  split; [apply normalizeText_eq|].
  repeat split; auto; apply only_space_not_in; auto; discriminate.
Qed.

(** ** Maps and [compareCourses] *)

Lemma jsstr_eqb_eq : forall a b, jsstr_eqb a b = true <-> a = b.
Proof.
  induction a as [|x a IH]; intros [|y b]; simpl; split; intros H;
    try congruence; try reflexivity.
  - apply andb_prop in H as [H1 H2]. apply Z.eqb_eq in H1. apply IH in H2. congruence.
  - injection H as -> ->. rewrite Z.eqb_refl. apply IH. reflexivity.
Qed.

Lemma jsstr_eqb_refl : forall a, jsstr_eqb a a = true.
Proof. intros a. apply jsstr_eqb_eq. reflexivity. Qed.

Lemma jsstr_eqb_neq : forall a b, jsstr_eqb a b = false <-> a <> b.
Proof.
  intros a b. rewrite <- jsstr_eqb_eq. destruct (jsstr_eqb a b); split; congruence.
Qed.

Section MapFacts.
Context {K V : Type} (keqb : K -> K -> bool).
Hypothesis keqb_eq : forall a b, keqb a b = true <-> a = b.

Lemma map_get_in : forall (m : jsmap K V) k v, map_get keqb m k = Some v -> In (k, v) m.
Proof.
  induction m as [|[k' v'] t IH]; intros k v H; simpl in *; [discriminate|].
  destruct (keqb k' k) eqn:E.
  - apply keqb_eq in E. left. congruence.
  - right. auto.
Qed.

Lemma map_get_none : forall (m : jsmap K V) k, map_get keqb m k = None <-> ~ In k (keys m).
Proof.
  induction m as [|[k' v'] t IH]; intros k; simpl; [tauto|].
  destruct (keqb k' k) eqn:E.
  - apply keqb_eq in E. split; [discriminate | intros H; exfalso; auto].
  - rewrite IH. split; [intros H [H'|H']; [subst; rewrite (proj2 (keqb_eq k k)) in E; auto; discriminate | auto] | tauto].
Qed.

Lemma in_map_get : forall (m : jsmap K V) k v,
  NoDup (keys m) -> In (k, v) m -> map_get keqb m k = Some v.
Proof.
  induction m as [|[k' v'] t IH]; intros k v Hnd Hin; simpl in *; [contradiction|].
  inversion Hnd as [|? ? Hk Hnd']; subst.
  destruct Hin as [E|Hin].
  - injection E as -> ->. rewrite (proj2 (keqb_eq k k)); auto.
  - destruct (keqb k' k) eqn:E.
    + apply keqb_eq in E; subst. exfalso. apply Hk.
      apply (in_map fst) in Hin. exact Hin.
    + auto.
Qed.

Lemma map_get_some_key : forall (m : jsmap K V) k v,
  map_get keqb m k = Some v -> In k (keys m).
Proof.
  intros m k v H. apply map_get_in in H. apply (in_map fst) in H. exact H.
Qed.

Lemma map_get_spec : forall (m : jsmap K V) k v,
  NoDup (keys m) -> (map_get keqb m k = Some v <-> In (k, v) m).
Proof. split; [apply map_get_in | apply in_map_get; auto]. Qed.
End MapFacts.

(** The result of the first loop of [compareCourses]: the entries of
    [curr] selected by each branch, in iteration order. *)
Lemma compare_curr_eq : forall prev es aa ac,
  compare_curr prev es aa ac =
  (aa ++ map snd (filter (fun '(k, _) => negb (map_has jsstr_eqb prev k)) es),
   ac ++ flat_map (fun '(k, c) =>
     match map_get jsstr_eqb prev k with
     | Some p => if negb (jsstr_eqb (hash p) (hash c)) then [(p, c)] else []
     | None => []
     end) es).
Proof.
  intros prev es. induction es as [|[k c] t IH]; intros aa ac; simpl.
  - rewrite !app_nil_r. reflexivity.
  - unfold map_has. destruct (map_get jsstr_eqb prev k) as [p|]; simpl.
    + destruct (negb (jsstr_eqb (hash p) (hash c))); rewrite IH;
        simpl; rewrite <- ?app_assoc; reflexivity.
    + rewrite IH, <- app_assoc. reflexivity.
Qed.

Lemma compare_prev_eq : forall curr es ar,
  compare_prev curr es ar =
  ar ++ map snd (filter (fun '(k, _) => negb (map_has jsstr_eqb curr k)) es).
Proof.
  intros curr es. induction es as [|[k p] t IH]; intros ar; simpl.
  - rewrite app_nil_r. reflexivity.
  - destruct (negb (map_has jsstr_eqb curr k)); rewrite IH;
      simpl; rewrite <- ?app_assoc; reflexivity.
Qed.

Lemma compareCourses_eq : forall prev curr,
  compareCourses prev curr =
  {| added := map snd (filter (fun '(k, _) => negb (map_has jsstr_eqb prev k)) curr);
     changed := flat_map (fun '(k, c) =>
       match map_get jsstr_eqb prev k with
       | Some p => if negb (jsstr_eqb (hash p) (hash c)) then [(p, c)] else []
       | None => []
       end) curr;
     removed := map snd (filter (fun '(k, _) => negb (map_has jsstr_eqb curr k)) prev) |}.
Proof.
  intros. unfold compareCourses. rewrite compare_curr_eq, compare_prev_eq. reflexivity.
Qed.

Lemma map_has_false : forall {V : Type} (m : jsmap jsstr V) k,
  negb (map_has jsstr_eqb m k) = true <-> map_get jsstr_eqb m k = None.
Proof.
  intros V m k. unfold map_has. destruct (map_get jsstr_eqb m k); simpl; split; congruence.
Qed.

Lemma compareCourses_members : forall prev curr : Snapshot,
  NoDup (keys prev) -> NoDup (keys curr) ->
  let d := compareCourses prev curr in
  (forall c, In c (added d) <->
     exists k, map_get jsstr_eqb curr k = Some c /\ map_get jsstr_eqb prev k = None) /\
  (forall b a, In (b, a) (changed d) <->
     exists k, map_get jsstr_eqb curr k = Some a /\ map_get jsstr_eqb prev k = Some b /\
               hash b <> hash a) /\
  (forall p, In p (removed d) <->
     exists k, map_get jsstr_eqb prev k = Some p /\ map_get jsstr_eqb curr k = None).
Proof.
  intros prev curr Hp Hc d. subst d. rewrite compareCourses_eq. cbn [added changed removed].
  split; [|split].
  - intros c. rewrite in_map_iff. split.
    + intros [[k c'] [E Hin]]. simpl in E. subst c'.
      apply filter_In in Hin as [Hin Hf]. apply map_has_false in Hf.
      exists k. split; [apply in_map_get; auto; apply jsstr_eqb_eq | exact Hf].
    + intros [k [H1 H2]]. exists (k, c). split; [reflexivity|].
      apply filter_In. split; [apply (map_get_in jsstr_eqb jsstr_eqb_eq); exact H1 |].
      apply map_has_false. exact H2.
  - intros b a. rewrite in_flat_map. split.
    + intros [[k c] [Hin H]].
      destruct (map_get jsstr_eqb prev k) as [p|] eqn:Ep; [|contradiction].
      destruct (jsstr_eqb (hash p) (hash c)) eqn:Eh; simpl in H; [contradiction|].
      destruct H as [H|[]]. injection H as -> ->.
      exists k. split; [apply in_map_get; auto; apply jsstr_eqb_eq|].
      split; [exact Ep | apply jsstr_eqb_neq; exact Eh].
    + intros [k [H1 [H2 H3]]]. exists (k, a).
      split; [apply (map_get_in jsstr_eqb jsstr_eqb_eq); exact H1|].
      rewrite H2. apply jsstr_eqb_neq in H3. rewrite H3. left. reflexivity.
  - intros p. rewrite in_map_iff. split.
    + intros [[k p'] [E Hin]]. simpl in E. subst p'.
      apply filter_In in Hin as [Hin Hf]. apply map_has_false in Hf.
      exists k. split; [apply in_map_get; auto; apply jsstr_eqb_eq | exact Hf].
    + intros [k [H1 H2]]. exists (k, p). split; [reflexivity|].
      apply filter_In. split; [apply (map_get_in jsstr_eqb jsstr_eqb_eq); exact H1 |].
      apply map_has_false. exact H2.
Qed.

(** C1: [compareCourses] puts in [added] exactly the records of ids of
    [curr] absent from [prev], in [changed] exactly the pairs
    [(prev[id], curr[id])] of ids present in both with different
    fingerprints, and in [removed] exactly the records of ids of [prev]
    absent from [curr]; an id present in both with equal fingerprints gives
    no entry, whatever its other fields. *)
Theorem compareCourses_classification : forall prev curr : Snapshot,
  NoDup (keys prev) -> NoDup (keys curr) ->
  let d := compareCourses prev curr in
  (forall c, In c (added d) <->
     exists k, map_get jsstr_eqb curr k = Some c /\ map_get jsstr_eqb prev k = None) /\
  (forall b a, In (b, a) (changed d) <->
     exists k, map_get jsstr_eqb curr k = Some a /\ map_get jsstr_eqb prev k = Some b /\
               hash b <> hash a) /\
  (forall p, In p (removed d) <->
     exists k, map_get jsstr_eqb prev k = Some p /\ map_get jsstr_eqb curr k = None).
Proof. exact compareCourses_members. Qed.


Lemma map_has_in : forall {V : Type} (m : jsmap jsstr V) k,
  map_has jsstr_eqb m k = true <-> In k (keys m).
Proof.
  intros V m k. pose proof (map_get_none jsstr_eqb jsstr_eqb_eq m k) as H.
  unfold map_has. destruct (map_get jsstr_eqb m k) as [v|] eqn:E; split; intros Hx.
  - eapply map_get_some_key; [apply jsstr_eqb_eq | exact E].
  - reflexivity.
  - discriminate.
  - exfalso. apply H; auto.
Qed.

Lemma filter_split_length : forall {A : Type} (f : A -> bool) l,
  (List.length (filter (fun x => negb (f x)) l) + List.length (filter f l) = List.length l)%nat.
Proof.
  intros A f l. induction l as [|x t IH]; simpl; [reflexivity|].
  destruct (f x); simpl; lia.
Qed.

Lemma keys_filter : forall {V : Type} (h : jsstr -> bool) (l : jsmap jsstr V),
  keys (filter (fun '(k, _) => h k) l) = filter h (keys l).
Proof.
  intros V h l. induction l as [|[k v] t IH]; simpl; [reflexivity|].
  destruct (h k); simpl; rewrite IH; reflexivity.
Qed.

Lemma common_keys_length : forall (prev curr : Snapshot),
  NoDup (keys prev) -> NoDup (keys curr) ->
  List.length (filter (fun '(k, _) => map_has jsstr_eqb prev k) curr)
  = List.length (filter (fun '(k, _) => map_has jsstr_eqb curr k) prev).
Proof.
  intros prev curr Hp Hc.
  rewrite <- (length_map fst (filter _ curr)), <- (length_map fst (filter _ prev)).
  fold (@keys jsstr Course (filter (fun '(k, _) => map_has jsstr_eqb prev k) curr)).
  fold (@keys jsstr Course (filter (fun '(k, _) => map_has jsstr_eqb curr k) prev)).
  rewrite !keys_filter. apply Permutation_length, NoDup_Permutation;
    [apply NoDup_filter; auto | apply NoDup_filter; auto|].
  intros k. rewrite !filter_In, !map_has_in. tauto.
Qed.

Lemma changed_unchanged_length : forall (prev curr : Snapshot),
  (List.length (changed (compareCourses prev curr)) + List.length (unchanged_ids prev curr)
   = List.length (filter (fun '(k, _) => map_has jsstr_eqb prev k) curr))%nat.
Proof.
  intros prev curr. rewrite compareCourses_eq. cbn [changed]. unfold unchanged_ids.
  rewrite length_map. induction curr as [|[k c] t IH]; [reflexivity|].
  simpl. unfold map_has at 1.
  destruct (map_get jsstr_eqb prev k) as [p|]; [|exact IH].
  destruct (jsstr_eqb (hash p) (hash c)); simpl; lia.
Qed.

Lemma unchanged_ids_iff : forall (prev curr : Snapshot) k,
  NoDup (keys curr) ->
  In k (unchanged_ids prev curr) <->
  exists p c, map_get jsstr_eqb prev k = Some p /\ map_get jsstr_eqb curr k = Some c /\
              hash p = hash c.
Proof.
  intros prev curr k Hc. unfold unchanged_ids. rewrite in_map_iff. split.
  - intros [[k' c] [E Hin]]. simpl in E. subst k'.
    apply filter_In in Hin as [Hin Hf].
    destruct (map_get jsstr_eqb prev k) as [p|] eqn:Ep; [|discriminate].
    exists p, c. split; [reflexivity|]. split.
    + apply in_map_get; auto. apply jsstr_eqb_eq.
    + apply jsstr_eqb_eq. exact Hf.
  - intros [p [c [H1 [H2 H3]]]]. exists (k, c). split; [reflexivity|].
    apply filter_In. split; [apply (map_get_in jsstr_eqb jsstr_eqb_eq); exact H2|].
    rewrite H1. apply jsstr_eqb_eq. exact H3.
Qed.

Lemma filter_all_false : forall {A : Type} (f : A -> bool) l,
  (forall x, In x l -> f x = false) -> filter f l = [].
Proof.
  intros A f l H. induction l as [|x t IH]; simpl; [reflexivity|].
  rewrite H by (left; reflexivity). apply IH. intros y Hy. apply H. right. exact Hy.
Qed.

Lemma flat_map_all_nil : forall {A B : Type} (f : A -> list B) l,
  (forall x, In x l -> f x = []) -> flat_map f l = [].
Proof.
  intros A B f l H. induction l as [|x t IH]; simpl; [reflexivity|].
  rewrite H by (left; reflexivity). apply IH. intros y Hy. apply H. right. exact Hy.
Qed.

Lemma compareCourses_self_empty : forall s : Snapshot,
  NoDup (keys s) -> compareCourses s s = {| added := []; changed := []; removed := [] |}.
Proof.
  intros s Hs. rewrite compareCourses_eq.
  rewrite filter_all_false, flat_map_all_nil; [reflexivity| |].
  - intros [k c] Hin.
    rewrite (in_map_get jsstr_eqb jsstr_eqb_eq s k c Hs Hin), jsstr_eqb_refl. reflexivity.
  - intros [k c] Hin.
    apply negb_false_iff, map_has_in. apply (in_map fst) in Hin. exact Hin.
Qed.

(** C2: [compareCourses] partitions the ids: every id of [prev] or [curr]
    is exactly one of added, changed, unchanged (in both, equal
    fingerprints) or removed; [|added| + |changed| + |unchanged| = |curr|]
    and [|removed| + |changed| + |unchanged| = |prev|]; comparing a snapshot
    with itself gives three empty lists. *)
Theorem compareCourses_partition : forall prev curr : Snapshot,
  NoDup (keys prev) -> NoDup (keys curr) ->
  let d := compareCourses prev curr in
  (forall k, In k (keys prev) \/ In k (keys curr) ->
     exactly_one
       [In k (keys curr) /\ ~ In k (keys prev);
        exists p c, map_get jsstr_eqb prev k = Some p /\ map_get jsstr_eqb curr k = Some c /\
                    hash p <> hash c;
        In k (unchanged_ids prev curr);
        In k (keys prev) /\ ~ In k (keys curr)]) /\
  (List.length (added d) + List.length (changed d) + List.length (unchanged_ids prev curr)
   = List.length curr)%nat /\
  (List.length (removed d) + List.length (changed d) + List.length (unchanged_ids prev curr)
   = List.length prev)%nat /\
  compareCourses curr curr = {| added := []; changed := []; removed := [] |}.
Proof.
  intros prev curr Hp Hc d. subst d.
  split; [|split; [|split]].
  - intros k Hk. pose proof (unchanged_ids_iff prev curr k Hc) as U.
    pose proof (map_get_none jsstr_eqb jsstr_eqb_eq prev k) as Np.
    pose proof (map_get_none jsstr_eqb jsstr_eqb_eq curr k) as Nc.
    pose proof (map_get_some_key jsstr_eqb jsstr_eqb_eq prev k) as Sp.
    pose proof (map_get_some_key jsstr_eqb jsstr_eqb_eq curr k) as Sc.
    simpl exactly_one.
    destruct (map_get jsstr_eqb prev k) as [p|] eqn:Ep;
    destruct (map_get jsstr_eqb curr k) as [c|] eqn:Ec.
    + specialize (Sp p eq_refl). specialize (Sc c eq_refl).
      destruct (jsstr_eqb (hash p) (hash c)) eqn:Eh.
      * apply jsstr_eqb_eq in Eh. right. split; [tauto|]. right. split.
        { intros [p' [c' [H1 [H2 H3]]]]. congruence. }
        left. split; [apply U; exists p, c; auto|]. repeat constructor. tauto.
      * apply jsstr_eqb_neq in Eh. right. split; [tauto|]. left.
        split; [exists p, c; auto|]. repeat constructor.
        -- intros H. apply U in H. destruct H as [p' [c' [H1 [H2 H3]]]]. congruence.
        -- tauto.
    + specialize (Sp p eq_refl). assert (Hn : ~ In k (keys curr)) by (apply Nc; reflexivity).
      right. split; [tauto|]. right. split; [intros [? [? [_ [H _]]]]; discriminate|].
      right. split; [intros H0; apply U in H0; destruct H0 as [? [? [_ [H0 _]]]]; discriminate|].
      left. split; [tauto|]. constructor.
    + specialize (Sc c eq_refl). assert (Hn : ~ In k (keys prev)) by (apply Np; reflexivity).
      left. split; [tauto|]. repeat constructor.
      * intros [? [? [H _]]]; discriminate.
      * intros H0; apply U in H0; destruct H0 as [? [? [H0 _]]]; discriminate.
      * tauto.
    + exfalso. destruct Hk as [Hk|Hk]; [apply Np in Hk | apply Nc in Hk]; auto.
  - pose proof (changed_unchanged_length prev curr) as H.
    assert (Ha : List.length (added (compareCourses prev curr))
                 = List.length (filter (fun x => negb ((fun '(k, _) => map_has jsstr_eqb prev k) x)) curr)).
    { rewrite compareCourses_eq. cbn [added]. rewrite length_map.
      f_equal. apply filter_ext. intros [k c]. reflexivity. }
    rewrite Ha, <- (filter_split_length (fun '(k, _) => map_has jsstr_eqb prev k) curr). lia.
  - pose proof (changed_unchanged_length prev curr) as H.
    rewrite common_keys_length in H by auto.
    assert (Hr : List.length (removed (compareCourses prev curr))
                 = List.length (filter (fun x => negb ((fun '(k, _) => map_has jsstr_eqb curr k) x)) prev)).
    { rewrite compareCourses_eq. cbn [removed]. rewrite length_map.
      f_equal. apply filter_ext. intros [k c]. reflexivity. }
    rewrite Hr, <- (filter_split_length (fun '(k, _) => map_has jsstr_eqb curr k) prev). lia.
  - apply compareCourses_self_empty. exact Hc.
Qed.

Lemma keyed_get : forall (m : Snapshot) k c,
  keyed_by_id m -> map_get jsstr_eqb m k = Some c -> k = id c.
Proof.
  intros m k c Hm H. apply (map_get_in jsstr_eqb jsstr_eqb_eq) in H.
  unfold keyed_by_id in Hm. rewrite Forall_forall in Hm. exact (Hm (k, c) H).
Qed.

(** C10: in snapshots keyed by record id, every changed pair
    [(before, after)] has [before.id = after.id], [before = prev[id]],
    [after = curr[id]] and different fingerprints; no added record has its
    id in [prev] and no removed record has its id in [curr]. *)
Theorem compareCourses_diff_invariant : forall prev curr : Snapshot,
  NoDup (keys prev) -> NoDup (keys curr) -> keyed_by_id prev -> keyed_by_id curr ->
  let d := compareCourses prev curr in
  (forall b a, In (b, a) (changed d) ->
     id b = id a /\ map_get jsstr_eqb prev (id a) = Some b /\
     map_get jsstr_eqb curr (id a) = Some a /\ hash b <> hash a) /\
  (forall c, In c (added d) -> map_get jsstr_eqb prev (id c) = None) /\
  (forall p, In p (removed d) -> map_get jsstr_eqb curr (id p) = None).
Proof.
  intros prev curr Hp Hc Kp Kc d.
  destruct (compareCourses_members prev curr Hp Hc) as [HA [HC HR]].
  split; [|split].
  - intros b a H. apply HC in H as [k [H1 [H2 H3]]].
    pose proof (keyed_get curr k a Kc H1) as E1.
    pose proof (keyed_get prev k b Kp H2) as E2.
    subst k. repeat split; auto.
  - intros c H. apply HA in H as [k [H1 H2]].
    rewrite <- (keyed_get curr k c Kc H1). exact H2.
  - intros p H. apply HR in H as [k [H1 H2]].
    rewrite <- (keyed_get prev k p Kp H1). exact H2.
Qed.

(** ** The fingerprint *)

(** C3: [makeHash] is SHA-256 (as lowercase hex) of the canonicalized
    title, instructor, term, schedule, room (or [""]), last-updated label
    (or [""]) and body text joined with ["|"]; two records whose seven
    canonicalized fields agree get the same digest. *)
Theorem makeHash_spec : forall (sha256_hex : jsstr -> jsstr) (a b : CourseBase),
  makeHash sha256_hex a =
    sha256_hex (join pipe (map normalizeText
      [b_title a; b_instructor a; b_term a; b_dayPeriod a; or_empty (b_room a);
       or_empty (b_updatedAt a); b_bodyText a])) /\
  (map normalizeText (hash_fields a) = map normalizeText (hash_fields b) ->
   makeHash sha256_hex a = makeHash sha256_hex b).
Proof.
  intros sha a b. split; [reflexivity|].
  intros H. unfold makeHash, hash_key. rewrite H. reflexivity.
Qed.

(** ** Loading and saving snapshots *)

(** C5: [loadPrev] is total and yields the empty map when the file cannot
    be read, when its text does not parse, or when the parsed value is not
    an array; a missing file and a corrupted one give the same result. *)
Theorem loadPrev_failure_empty : forall (text : Type) (json_parse : text -> option json)
    (fs : FS text) (filePath : jsstr),
  (fs filePath = None \/
   exists raw, fs filePath = Some raw /\
     (json_parse raw = None \/ exists j, json_parse raw = Some j /\ is_array j = false)) ->
  loadPrev text json_parse fs filePath = [].
Proof.
  intros text parse fs path [H | [raw [H [P | [j [P A]]]]]]; unfold loadPrev; rewrite H;
    [reflexivity | rewrite P; reflexivity |].
  rewrite P. destruct j; try reflexivity. discriminate.
Qed.

Lemma mkey_eqb_eq : forall a b, mkey_eqb a b = true <-> a = b.
Proof.
  intros [] []; simpl; split; intros H; try discriminate; try congruence;
    try reflexivity.
  - apply Bool.eqb_prop in H. congruence.
  - injection H as ->. apply Bool.eqb_reflx.
  - apply Z.eqb_eq in H. congruence.
  - injection H as ->. apply Z.eqb_refl.
  - apply jsstr_eqb_eq in H. congruence.
  - injection H as ->. apply jsstr_eqb_refl.
  - apply Nat.eqb_eq in H. congruence.
  - injection H as ->. apply Nat.eqb_refl.
Qed.

Section MapOfEntries.
Context {K V : Type} (keqb : K -> K -> bool).
Hypothesis keqb_eq : forall a b, keqb a b = true <-> a = b.

Lemma map_get_set : forall (m : jsmap K V) k v k',
  map_get keqb (map_set keqb m k v) k' = if keqb k k' then Some v else map_get keqb m k'.
Proof.
  induction m as [|[k0 v0] t IH]; intros k v k'; simpl; [reflexivity|].
  destruct (keqb k0 k) eqn:E0; simpl.
  - apply keqb_eq in E0. subst k0. destruct (keqb k k'); reflexivity.
  - rewrite IH. destruct (keqb k0 k') eqn:E1; [|reflexivity].
    apply keqb_eq in E1. subst k'.
    destruct (keqb k k0) eqn:E2; [|reflexivity].
    apply keqb_eq in E2. subst k. rewrite (proj2 (keqb_eq k0 k0) eq_refl) in E0.
    discriminate.
Qed.

Lemma map_get_entries_acc : forall l (m : jsmap K V) k,
  map_get keqb (fold_left (fun m '(k0, v0) => map_set keqb m k0 v0) l m) k =
  fold_left (fun acc '(k0, v0) => if keqb k0 k then Some v0 else acc) l (map_get keqb m k).
Proof.
  induction l as [|[k0 v0] t IH]; intros m k; simpl; [reflexivity|].
  rewrite IH, map_get_set. reflexivity.
Qed.

Lemma keys_map_set : forall (m : jsmap K V) k v k',
  In k' (keys (map_set keqb m k v)) -> In k' (keys m) \/ k' = k.
Proof.
  induction m as [|[k0 v0] t IH]; intros k v k' H; simpl in *.
  - destruct H as [H|[]]. auto.
  - destruct (keqb k0 k); simpl in H; destruct H as [H|H]; auto.
    destruct (IH k v k' H); auto.
Qed.

Lemma keys_entries_acc : forall l (m : jsmap K V) k,
  In k (keys (fold_left (fun m '(k0, v0) => map_set keqb m k0 v0) l m)) ->
  In k (keys m) \/ In k (keys l).
Proof.
  induction l as [|[k0 v0] t IH]; intros m k H; simpl in *; [auto|].
  destruct (IH _ _ H) as [H1|H1]; [|auto].
  destruct (keys_map_set m k0 v0 k H1); auto.
Qed.

Lemma map_set_fresh : forall (m : jsmap K V) k v,
  ~ In k (keys m) -> map_set keqb m k v = m ++ [(k, v)].
Proof.
  induction m as [|[k0 v0] t IH]; intros k v H; simpl in *; [reflexivity|].
  destruct (keqb k0 k) eqn:E.
  - apply keqb_eq in E. subst. exfalso. auto.
  - rewrite IH; auto.
Qed.

Lemma map_of_entries_nodup : forall l (m : jsmap K V),
  NoDup (keys m ++ keys l) ->
  fold_left (fun m '(k0, v0) => map_set keqb m k0 v0) l m = m ++ l.
Proof.
  induction l as [|[k0 v0] t IH]; intros m H; simpl in *; [rewrite app_nil_r; reflexivity|].
  rewrite map_set_fresh.
  - rewrite IH, <- app_assoc; [reflexivity|].
    unfold keys. rewrite map_app, <- app_assoc. exact H.
  - intros Hin. apply NoDup_remove_2 in H. apply H. apply in_or_app. left. exact Hin.
Qed.
End MapOfEntries.

Lemma id_entries_courses : forall cs pos,
  id_entries pos (map course_to_json cs) =
  Some (map (fun c => (KStr (id c), course_to_json c)) cs).
Proof.
  induction cs as [|c t IH]; intros pos; [reflexivity|].
  simpl map. unfold id_entries; fold id_entries. rewrite IH. reflexivity.
Qed.

Lemma fold_left_map_acc : forall {A B C : Type} (g : C -> B -> C) (f : A -> B) l acc,
  fold_left g (map f l) acc = fold_left (fun a x => g a (f x)) l acc.
Proof.
  intros A B C g f l. induction l as [|x t IH]; intros acc; simpl; [reflexivity|]. apply IH.
Qed.

Lemma course_of_to_json : forall c, course_of_json (course_to_json c) = Some c.
Proof.
  intros [i t ins te dp r u bt du h]. destruct r, u; reflexivity.
Qed.

Lemma nodup_str_keys : forall cs,
  NoDup (map id cs) -> NoDup (map (fun c => KStr (id c)) cs).
Proof.
  induction cs as [|c t IH]; intros H; simpl in *; constructor.
  - inversion H as [|? ? Hn _]; subst. rewrite in_map_iff. intros [c' [E Hin]].
    injection E as E. apply Hn. rewrite <- E. apply in_map. exact Hin.
  - inversion H; auto.
Qed.

Lemma load_after_save : forall (text : Type) (json_parse : text -> option json)
    (json_stringify : json -> text),
  (forall j, json_parse (json_stringify j) = Some j) ->
  forall fs filePath cs,
  loadPrev text json_parse (saveCurr text json_stringify fs filePath cs) filePath =
  map_of_entries mkey_eqb (map (fun c => (KStr (id c), course_to_json c)) cs).
Proof.
  intros text parse stringify RT fs path cs. unfold loadPrev, saveCurr.
  rewrite jsstr_eqb_refl, RT, id_entries_courses. reflexivity.
Qed.

(** C7 (as the code behaves): [saveCurr] writes the whole list; loading it
    back yields, for each id, the last record of the list with that id, with
    every field preserved, and no key that is not such an id; when the ids
    are distinct the loaded map holds exactly the records of the list, in
    order, keyed by their ids. *)
Theorem save_load_roundtrip : forall (text : Type) (json_parse : text -> option json)
    (json_stringify : json -> text),
  (forall j, json_parse (json_stringify j) = Some j) ->
  forall fs filePath cs,
  let fs' := saveCurr text json_stringify fs filePath cs in
  let m := loadPrev text json_parse fs' filePath in
  fs' filePath = Some (json_stringify (JArr (map course_to_json cs))) /\
  (forall k, map_get mkey_eqb m (KStr k) = last_with_id cs k) /\
  (forall key, In key (keys m) -> exists c, In c cs /\ key = KStr (id c)) /\
  (forall c, course_of_json (course_to_json c) = Some c) /\
  (NoDup (map id cs) -> m = map (fun c => (KStr (id c), course_to_json c)) cs).
Proof.
  intros text parse stringify RT fs path cs fs' m. subst fs' m.
  rewrite (load_after_save text parse stringify RT).
  split; [unfold saveCurr; rewrite jsstr_eqb_refl; reflexivity|].
  split; [|split; [|split]].
  - intros k. unfold map_of_entries.
    rewrite (map_get_entries_acc mkey_eqb mkey_eqb_eq), fold_left_map_acc.
    reflexivity.
  - intros key Hk. unfold map_of_entries in Hk.
    destruct (keys_entries_acc mkey_eqb _ [] key Hk) as [[]|H].
    unfold keys in H. rewrite map_map, in_map_iff in H.
    destruct H as [c [E Hin]]. exists c. auto.
  - apply course_of_to_json.
  - intros Hnd. unfold map_of_entries.
    rewrite (map_of_entries_nodup mkey_eqb mkey_eqb_eq); [reflexivity|].
    simpl. unfold keys. rewrite map_map. apply nodup_str_keys. exact Hnd.
Qed.

(** ** The worker pool *)

Lemma upd_length : forall {A : Type} (l : list A) k x, List.length (upd l k x) = List.length l.
Proof. intros A l. induction l as [|y t IH]; intros [|k] x; simpl; auto. Qed.

Lemma in_upd : forall {A : Type} (l : list A) k x y, In y (upd l k x) -> y = x \/ In y l.
Proof.
  intros A l. induction l as [|z t IH]; intros [|k] x y H; simpl in *; auto.
  - destruct H; auto.
  - destruct H as [H|H]; auto. destruct (IH k x y H); auto.
Qed.

Lemma firstn_snoc : forall {A : Type} (l : list A) n a,
  nth_error l n = Some a -> firstn (S n) l = firstn n l ++ [a].
Proof.
  intros A l. induction l as [|b t IH]; intros [|n] a H; simpl in *; try discriminate.
  - injection H as ->. reflexivity.
  - f_equal. apply IH. exact H.
Qed.

Lemma upd_sum : forall (ws : list wstate) k w x,
  nth_error ws k = Some w ->
  (list_sum (map wcost (upd ws k x)) + wcost w = list_sum (map wcost ws) + wcost x)%nat.
Proof.
  induction ws as [|y t IH]; intros [|k] w x H; simpl in *; try discriminate.
  - injection H as ->. lia.
  - specialize (IH k w x H). lia.
Qed.

Section PoolProofs.
Context (sha256_hex : jsstr -> jsstr) (url_id_param : jsstr -> option (option jsstr))
        (fetch_page : Stub -> option Detail) (queue : list Stub).

Local Abbreviation bo := (busy_output sha256_hex url_id_param fetch_page queue).
Local Abbreviation pend := (pending sha256_hex url_id_param fetch_page queue).
Local Abbreviation inv := (pool_inv sha256_hex url_id_param fetch_page queue).
Local Abbreviation step := (pool_step sha256_hex url_id_param fetch_page queue).
Local Abbreviation F := (fun it => opt_list (fetchDetail sha256_hex url_id_param fetch_page it)).

Lemma pending_upd : forall ws k w x,
  nth_error ws k = Some w ->
  Permutation (bo w ++ pend (upd ws k x)) (bo x ++ pend ws).
Proof.
  unfold pending. induction ws as [|y t IH]; intros [|k] w x H; simpl in *; try discriminate.
  - injection H as ->. apply Permutation_app_swap_app.
  - specialize (IH k w x H).
    rewrite Permutation_app_swap_app. rewrite (Permutation_app_swap_app (bo x)).
    apply Permutation_app_head. exact IH.
Qed.

Lemma pool_inv_init : inv (pool_init queue).
Proof.
  unfold pool_inv, pool_init; simpl. repeat split.
  - lia.
  - unfold pending. rewrite flat_map_all_nil; [constructor|].
    intros w Hw. apply repeat_spec in Hw. subst. reflexivity.
  - apply repeat_length.
  - intros H. apply repeat_spec in H. discriminate.
Qed.

Lemma pool_inv_step : forall s s', inv s -> step s s' -> inv s'.
Proof.
  intros s s' [Hn [Ht [Hp [Hl Hd]]]] St.
  destruct St as [s k Hk Hlt | s k Hk Hge | s k idx Hk]; unfold pool_inv;
    cbn [next workers courses taken].
  - destruct (nth_error queue (next s)) as [it|] eqn:Eit;
      [| apply nth_error_None in Eit; lia].
    split; [lia|]. split; [rewrite Ht, seq_S; reflexivity|].
    split; [|split; [rewrite upd_length; exact Hl|]].
    + rewrite (firstn_snoc _ _ _ Eit), flat_map_app.
      pose proof (pending_upd (workers s) k WIdle (WBusy (next s)) Hk) as P.
      cbn [busy_output app] in P. rewrite Eit in P.
      rewrite P. cbn [flat_map]. rewrite app_nil_r.
      rewrite Permutation_app_swap_app, Hp. apply Permutation_app_comm.
    + intros H. apply in_upd in H as [H|H]; [discriminate | specialize (Hd H); lia].
  - split; [lia|]. split; [exact Ht|]. split; [|split; [rewrite upd_length; exact Hl|]].
    + pose proof (pending_upd (workers s) k WIdle WDone Hk) as P.
      cbn [busy_output app] in P. rewrite P. exact Hp.
    + intros _. exact Hge.
  - split; [lia|]. split; [exact Ht|]. split; [|split; [rewrite upd_length; exact Hl|]].
    + pose proof (pending_upd (workers s) k (WBusy idx) WIdle Hk) as P.
      cbn [busy_output app] in P. rewrite <- app_assoc, P. exact Hp.
    + intros H. apply in_upd in H as [H|H]; [discriminate | auto].
Qed.

Lemma pool_inv_steps : forall s, pool_steps sha256_hex url_id_param fetch_page queue
                                   (pool_init queue) s -> inv s.
Proof.
  intros s H. remember (pool_init queue) as s0 eqn:E.
  assert (I0 : inv s0) by (subst; apply pool_inv_init). clear E.
  induction H as [s|s1 s2 s3 St _ IH]; [exact I0|].
  apply IH. exact (pool_inv_step s1 s2 I0 St).
Qed.

Lemma pending_finished : forall ws, Forall (fun w => w = WDone) ws -> pend ws = [].
Proof.
  intros ws H. unfold pending. apply flat_map_all_nil. intros w Hw.
  rewrite Forall_forall in H. rewrite (H w Hw). reflexivity.
Qed.

(** When every worker has returned, [courses] holds the records of the
    successful fetches and every index was taken exactly once, in order. *)
Lemma pool_finished_result : forall s,
  inv s -> pool_finished s ->
  Permutation (courses s) (successes sha256_hex url_id_param fetch_page queue) /\
  taken s = seq 0 (List.length queue).
Proof.
  intros s [Hn [Ht [Hp [Hl Hd]]]] Hf. unfold pool_finished in Hf.
  assert (E : next s = List.length queue).
  { destruct (workers s) as [|w ws] eqn:Ew.
    - simpl in Hl. unfold MAX_CONCURRENCY in Hl.
      destruct (List.length queue) as [|l]; [lia | simpl in Hl; discriminate].
    - inversion Hf; subst. specialize (Hd (or_introl eq_refl)). lia. }
  rewrite pending_finished, app_nil_r in Hp by exact Hf.
  rewrite E, firstn_all in Hp. rewrite E in Ht. split; [exact Hp | exact Ht].
Qed.

Lemma pool_progress : forall s, ~ pool_finished s -> exists s', step s s'.
Proof.
  intros s Hf. unfold pool_finished in Hf.
  assert (Hex : exists k w, nth_error (workers s) k = Some w /\ w <> WDone).
  { clear -Hf. induction (workers s) as [|w ws IH]; [exfalso; apply Hf; constructor|].
    destruct w.
    - exists 0%nat, WIdle. split; [reflexivity | discriminate].
    - exists 0%nat, (WBusy idx). split; [reflexivity | discriminate].
    - destruct IH as [k [w [H1 H2]]].
      + intros H. apply Hf. constructor; auto.
      + exists (S k), w. auto. }
  destruct Hex as [k [[|idx|] [Hk Hne]]]; [| |contradiction].
  - destruct (Nat.lt_ge_cases (next s) (List.length queue)).
    + eexists. apply step_take with (k := k); auto.
    + eexists. apply step_exit with (k := k); auto.
  - eexists. apply step_fetch with (k := k) (idx := idx); auto.
Qed.

Lemma pool_measure_step : forall s s', inv s -> step s s' ->
  (pool_measure queue s' < pool_measure queue s)%nat.
Proof.
  intros s s' [Hn _] St. unfold pool_measure.
  destruct St as [s k Hk Hlt | s k Hk Hge | s k idx Hk]; cbn [next workers].
  - pose proof (upd_sum (workers s) k WIdle (WBusy (next s)) Hk). simpl in *. lia.
  - pose proof (upd_sum (workers s) k WIdle WDone Hk). simpl in *. lia.
  - pose proof (upd_sum (workers s) k (WBusy idx) WIdle Hk). simpl in *. lia.
Qed.
End PoolProofs.

Lemma successes_failures : forall sha256_hex url_id_param fetch_page queue,
  (List.length (successes sha256_hex url_id_param fetch_page queue)
   + failures fetch_page queue = List.length queue)%nat.
Proof.
  intros sha url fetch queue. unfold successes, failures.
  induction queue as [|it t IH]; [reflexivity|].
  simpl. rewrite length_app. unfold fetchDetail at 1.
  destruct (fetch it); simpl; lia.
Qed.

(** C6: with at most [MAX_CONCURRENCY = 3] workers, 7 stubs and exactly 2
    failing detail fetches, under every interleaving of the workers: the
    pool can always make progress until every worker has returned, each
    step decreases [pool_measure] (so it does return), and when it has
    returned [courses] holds exactly 5 records, one per successful stub,
    with every stub taken exactly once. *)
Theorem pool_seven_stubs_two_failures :
  forall sha256_hex url_id_param fetch_page (queue : list Stub),
  List.length queue = 7%nat -> failures fetch_page queue = 2%nat ->
  forall s, pool_steps sha256_hex url_id_param fetch_page queue (pool_init queue) s ->
  (pool_finished s ->
     List.length (courses s) = 5%nat /\
     Permutation (courses s) (successes sha256_hex url_id_param fetch_page queue) /\
     taken s = seq 0 7) /\
  (~ pool_finished s -> exists s', pool_step sha256_hex url_id_param fetch_page queue s s') /\
  (forall s', pool_step sha256_hex url_id_param fetch_page queue s s' ->
     (pool_measure queue s' < pool_measure queue s)%nat).
Proof.
  intros sha url fetch queue Hlen Hfail s Hs.
  pose proof (pool_inv_steps sha url fetch queue s Hs) as I.
  split; [|split].
  - intros Hf. destruct (pool_finished_result sha url fetch queue s I Hf) as [P T].
    pose proof (successes_failures sha url fetch queue) as C.
    split; [|split; [exact P | rewrite T, Hlen; reflexivity]].
    rewrite (Permutation_length P). lia.
  - apply pool_progress.
  - intros s' St. exact (pool_measure_step sha url fetch queue s s' I St).
Qed.

(** ** The record id *)

Lemma fetchDetail_id : forall sha256_hex url_id_param fetch_page item c,
  fetchDetail sha256_hex url_id_param fetch_page item = Some c ->
  id c = resolve_id url_id_param item.
Proof.
  intros sha url fetch item c H. unfold fetchDetail in H.
  destruct (fetch item); [|discriminate]. injection H as <-. reflexivity.
Qed.

(** C8 (as the code behaves): the id of a fetched record is the stub's id
    when it is non-empty; otherwise the value of the [id] query parameter
    when the locator parses as a URL whose [id] parameter is present and
    non-empty; otherwise the locator itself (also when the parameter is
    absent or empty, or the locator does not parse). *)
Theorem resolve_id_rule : forall sha256_hex url_id_param fetch_page item,
  (s_id item <> [] -> resolve_id url_id_param item = s_id item) /\
  (s_id item = [] -> forall v, url_id_param (s_url item) = Some (Some v) -> v <> [] ->
   resolve_id url_id_param item = v) /\
  (s_id item = [] ->
   url_id_param (s_url item) = None \/ url_id_param (s_url item) = Some None \/
   url_id_param (s_url item) = Some (Some []) ->
   resolve_id url_id_param item = s_url item) /\
  (forall c, fetchDetail sha256_hex url_id_param fetch_page item = Some c ->
   id c = resolve_id url_id_param item).
Proof.
  intros sha url fetch item. unfold resolve_id, idFromUrl.
  split; [|split; [|split]].
  - intros H. destruct (s_id item); [contradiction | reflexivity].
  - intros H v Hv Hne. rewrite H, Hv. destruct v; [contradiction | reflexivity].
  - intros H [E|[E|E]]; rewrite H, E; reflexivity.
  - apply fetchDetail_id.
Qed.

(** * Further properties of the program *)

(** ** [escapeHtml] and the page rows *)

Lemma escapeHtml_units : forall s, escapeHtml s = flat_map esc_unit s.
Proof.
  induction s as [|x t IH]; [reflexivity|].
  unfold escapeHtml, replace_all_unit in *. cbn [flat_map].
  rewrite !flat_map_app, IH. f_equal. unfold esc_unit.
  destruct (x =? 38) eqn:E1; [apply Z.eqb_eq in E1; subst; reflexivity|].
  cbn [flat_map app]. destruct (x =? 60) eqn:E2; [apply Z.eqb_eq in E2; subst; reflexivity|].
  cbn [flat_map app]. destruct (x =? 62) eqn:E3; [apply Z.eqb_eq in E3; subst; reflexivity|].
  reflexivity.
Qed.

Lemma esc_unit_nonnil : forall x, esc_unit x <> [].
Proof.
  intros x. unfold esc_unit.
  destruct (x =? 38); [discriminate|]. destruct (x =? 60); [discriminate|].
  destruct (x =? 62); discriminate.
Qed.

Lemma esc_unit_app_inj : forall x y s t, esc_unit x ++ s = esc_unit y ++ t -> x = y /\ s = t.
Proof.
  intros x y s t. unfold esc_unit.
  destruct (Z.eqb_spec x 38); destruct (Z.eqb_spec x 60); destruct (Z.eqb_spec x 62);
  destruct (Z.eqb_spec y 38); destruct (Z.eqb_spec y 60); destruct (Z.eqb_spec y 62);
  subst; try lia; cbn; intros H; inversion H; subst; try lia; split; reflexivity.
Qed.

Lemma escape_no_angle : forall s, ~ In 60 (escapeHtml s) /\ ~ In 62 (escapeHtml s).
Proof.
  intros s. rewrite escapeHtml_units.
  split; intros H; apply in_flat_map in H as [x [_ Hx]]; unfold esc_unit in Hx;
    destruct (Z.eqb_spec x 38); try (cbn in Hx; lia);
    destruct (Z.eqb_spec x 60); try (cbn in Hx; lia);
    destruct (Z.eqb_spec x 62); cbn in Hx; lia.
Qed.

(** The output of [escapeHtml] contains no [<] and no [>]. *)
Theorem escapeHtml_no_angle_brackets : forall s,
  ~ In 60 (escapeHtml s) /\ ~ In 62 (escapeHtml s).
Proof. exact escape_no_angle. Qed.

(** Distinct strings stay distinct after [escapeHtml]. *)
Theorem escapeHtml_injective : forall a b, escapeHtml a = escapeHtml b -> a = b.
Proof.
  intros a b. rewrite !escapeHtml_units. revert b.
  induction a as [|x a IH]; intros [|y b] H; cbn [flat_map] in H.
  - reflexivity.
  - symmetry in H. apply app_eq_nil in H as [H _]. exfalso. exact (esc_unit_nonnil y H).
  - apply app_eq_nil in H as [H _]. exfalso. exact (esc_unit_nonnil x H).
  - apply esc_unit_app_inj in H as [-> H]. f_equal. apply IH. exact H.
Qed.

(** A string without [&], [<] and [>] is left unchanged, whatever else it
    contains (quotes included). *)
Theorem escapeHtml_plain_identity : forall s,
  (forall c, In c s -> c <> 38 /\ c <> 60 /\ c <> 62) -> escapeHtml s = s.
Proof.
  intros s H. rewrite escapeHtml_units. induction s as [|x t IH]; [reflexivity|].
  cbn [flat_map]. rewrite IH by (intros c Hc; apply H; right; exact Hc).
  destruct (H x (or_introl eq_refl)) as [N1 [N2 N3]]. unfold esc_unit.
  rewrite (proj2 (Z.eqb_neq x 38) N1), (proj2 (Z.eqb_neq x 60) N2),
    (proj2 (Z.eqb_neq x 62) N3). reflexivity.
Qed.

Lemma count_unit_app : forall c a b, count_unit c (a ++ b) = (count_unit c a + count_unit c b)%nat.
Proof. intros c a b. unfold count_unit. rewrite filter_app, length_app. reflexivity. Qed.

Lemma count_unit_absent : forall c s, ~ In c s -> count_unit c s = 0%nat.
Proof.
  intros c s H. unfold count_unit. rewrite filter_all_false; [reflexivity|].
  intros x Hx. apply Z.eqb_neq. intros ->. contradiction.
Qed.

Lemma join_nil_concat : forall l, join [] l = List.concat l.
Proof.
  induction l as [|x [|y t] IH]; [reflexivity| cbn; rewrite app_nil_r; reflexivity|].
  change (join [] (x :: y :: t)) with (x ++ [] ++ join [] (y :: t)). rewrite IH. reflexivity.
Qed.

Lemma count_escape : forall s,
  count_unit 60 (escapeHtml s) = 0%nat /\ count_unit 62 (escapeHtml s) = 0%nat.
Proof.
  intros s. destruct (escape_no_angle s) as [H1 H2].
  split; apply count_unit_absent; assumption.
Qed.

Lemma row_html_count : forall c,
  count_unit 60 (row_html c) = 18%nat /\ count_unit 62 (row_html c) = 18%nat.
Proof.
  intros c. unfold row_html.
  split; rewrite !count_unit_app;
    repeat match goal with |- context [count_unit ?u (escapeHtml ?s)] =>
      first [rewrite (proj1 (count_escape s)) | rewrite (proj2 (count_escape s))] end;
    reflexivity.
Qed.

(** Whatever the records hold, the rows of the page contain exactly 18
    [<] and 18 [>] per record: those of the template. *)
Theorem rows_html_tag_count : forall arr,
  count_unit 60 (rows_html arr) = (18 * List.length arr)%nat /\
  count_unit 62 (rows_html arr) = (18 * List.length arr)%nat.
Proof.
  intros arr. unfold rows_html. rewrite join_nil_concat.
  induction arr as [|c t IH]; [split; reflexivity|].
  cbn [map List.concat List.length]. rewrite !count_unit_app.
  destruct (row_html_count c) as [H1 H2]. destruct IH as [I1 I2]. lia.
Qed.

(** ** The Slack notification *)

(** No request is sent for an empty webhook; the text sent is never
    empty, and it is the fallback text exactly when the three lists of
    the diff are empty. *)
Theorem notifySlack_text : forall (text : Type) (json_stringify : json -> text) webhook d,
  (notifySlack json_stringify webhook d = None <-> webhook = []) /\
  notify_text d <> [] /\
  (notify_text d = no_diff_text <-> added d = [] /\ changed d = [] /\ removed d = []).
Proof.
  intros text js webhook d. split.
  { unfold notifySlack. destruct webhook; split; congruence. }
  unfold notify_text, notify_lines.
  destruct (added d) as [|a0 a]; destruct (changed d) as [|c0 ch];
    destruct (removed d) as [|r0 r]; cbn [app].
  { split; [discriminate | split; [intros _; auto | intros _; reflexivity]]. }
  all: unfold js_or, hdr_added, hdr_changed, hdr_removed, no_diff_text;
    cbn [firstn map join app].
  all: split; [discriminate|].
  all: split; [intros H; discriminate | intros [H1 [H2 H3]]; discriminate].
Qed.

(** The message has one header line per non-empty list, followed by at
    most 10 added, 10 changed and 5 removed items: 28 lines at most. *)
Theorem notify_lines_count : forall d,
  List.length (notify_lines d) =
    ((if List.length (added d) =? 0 then 0 else S (Nat.min 10 (List.length (added d))))
     + (if List.length (changed d) =? 0 then 0 else S (Nat.min 10 (List.length (changed d))))
     + (if List.length (removed d) =? 0 then 0 else S (Nat.min 5 (List.length (removed d)))))%nat
  /\ (List.length (notify_lines d) <= 28)%nat.
Proof.
  intros d. unfold notify_lines.
  destruct (added d) as [|a0 a]; destruct (changed d) as [|c0 ch];
    destruct (removed d) as [|r0 r];
    cbn [app List.length Nat.eqb];
    repeat first [rewrite length_app | rewrite length_map | rewrite length_firstn
                 | progress cbn [List.length]];
    lia.
Qed.

(** ** [compareCourses] with an empty side *)

Lemma filter_all_true : forall {A : Type} (f : A -> bool) l,
  (forall x, In x l -> f x = true) -> filter f l = l.
Proof.
  intros A f l H. induction l as [|x t IH]; simpl; [reflexivity|].
  rewrite H by (left; reflexivity). f_equal. apply IH. intros y Hy. apply H. right. exact Hy.
Qed.

(** Against an empty previous snapshot (the first run) every current
    record is added, in the order of the snapshot; against an empty
    current snapshot every previous record is removed. *)
Theorem compareCourses_one_side_empty : forall prev curr : Snapshot,
  compareCourses [] curr = {| added := map snd curr; changed := []; removed := [] |} /\
  compareCourses prev [] = {| added := []; changed := []; removed := map snd prev |}.
Proof.
  intros prev curr. split; rewrite compareCourses_eq.
  - rewrite filter_all_true by (intros [k c] _; reflexivity).
    rewrite flat_map_all_nil by (intros [k c] _; reflexivity). reflexivity.
  - rewrite (filter_all_true _ prev) by (intros [k c] _; reflexivity). reflexivity.
Qed.

(** ** The current snapshot built by [main] *)

Section MapSetFacts.
Context {K V : Type} (keqb : K -> K -> bool).
Hypothesis keqb_eq : forall a b, keqb a b = true <-> a = b.

Lemma map_set_nodup : forall (m : jsmap K V) k v,
  NoDup (keys m) -> NoDup (keys (map_set keqb m k v)).
Proof.
  induction m as [|[k0 v0] t IH]; intros k v H; simpl in *.
  - constructor; [intros []|constructor].
  - inversion H as [|? ? Hn Ht]; subst. destruct (keqb k0 k) eqn:E; simpl.
    + constructor; assumption.
    + constructor; [|apply IH; assumption].
      intros Hin. apply (keys_map_set keqb) in Hin as [Hin|Hin]; [contradiction|].
      subst. rewrite (proj2 (keqb_eq k k) eq_refl) in E. discriminate.
Qed.

Lemma map_set_forall : forall (P : K * V -> Prop) (m : jsmap K V) k v,
  Forall P m -> P (k, v) -> Forall P (map_set keqb m k v).
Proof.
  intros P. induction m as [|[k0 v0] t IH]; intros k v Hm Hp; simpl.
  - constructor; [exact Hp | constructor].
  - inversion Hm as [|? ? H0 Ht]; subst. destruct (keqb k0 k) eqn:E.
    + apply keqb_eq in E. subst. constructor; assumption.
    + constructor; [exact H0 | apply IH; assumption].
Qed.

Lemma entries_nodup : forall l (m : jsmap K V),
  NoDup (keys m) -> NoDup (keys (fold_left (fun m '(k0, v0) => map_set keqb m k0 v0) l m)).
Proof.
  induction l as [|[k0 v0] t IH]; intros m H; simpl; [exact H|].
  apply IH, map_set_nodup. exact H.
Qed.

Lemma entries_forall : forall (P : K * V -> Prop) l (m : jsmap K V),
  Forall P m -> Forall P l -> Forall P (fold_left (fun m '(k0, v0) => map_set keqb m k0 v0) l m).
Proof.
  intros P. induction l as [|[k0 v0] t IH]; intros m Hm Hl; simpl; [exact Hm|].
  inversion Hl; subst. apply IH; [apply map_set_forall|]; assumption.
Qed.
End MapSetFacts.

Lemma fold_last_some : forall (k : jsstr) l acc c,
  fold_left (fun acc c => if jsstr_eqb (id c) k then Some c else acc) l acc = Some c <->
  (exists pre post, l = pre ++ c :: post /\ id c = k /\ Forall (fun c' => id c' <> k) post) \/
  (acc = Some c /\ Forall (fun c' => id c' <> k) l).
Proof.
  intros k. induction l as [|x t IH]; intros acc c; simpl.
  - split; [intros H; right; split; [exact H | constructor]|].
    intros [[pre [post [E _]]] | [H _]]; [destruct pre; discriminate | exact H].
  - rewrite IH. destruct (jsstr_eqb (id x) k) eqn:E.
    + apply jsstr_eqb_eq in E. split.
      * intros [[pre [post [Hl [Hc Hf]]]] | [Hs Hf]].
        -- left. exists (x :: pre), post. rewrite Hl. auto.
        -- injection Hs as <-. left. exists [], t. auto.
      * intros [[pre [post [Hl [Hc Hf]]]] | [Hs Hf]].
        -- destruct pre as [|y pre].
           ++ injection Hl as -> ->. right. auto.
           ++ injection Hl as -> Ht. left. exists pre, post. auto.
        -- inversion Hf; contradiction.
    + apply jsstr_eqb_neq in E. split.
      * intros [[pre [post [Hl [Hc Hf]]]] | [Hs Hf]].
        -- left. exists (x :: pre), post. rewrite Hl. auto.
        -- right. split; [exact Hs | constructor; assumption].
      * intros [[pre [post [Hl [Hc Hf]]]] | [Hs Hf]].
        -- destruct pre as [|y pre].
           ++ injection Hl as -> ->. contradiction.
           ++ injection Hl as -> Ht. left. exists pre, post. auto.
        -- inversion Hf; subst. right. auto.
Qed.

Lemma fold_last_none : forall (k : jsstr) l acc,
  fold_left (fun acc c => if jsstr_eqb (id c) k then Some c else acc) l acc = None <->
  acc = None /\ Forall (fun c' => id c' <> k) l.
Proof.
  intros k. induction l as [|x t IH]; intros acc; simpl.
  - split; [intros H; split; [exact H | constructor] | intros [H _]; exact H].
  - rewrite IH. destruct (jsstr_eqb (id x) k) eqn:E.
    + apply jsstr_eqb_eq in E. split; [intros [H _]; discriminate|].
      intros [_ Hf]. inversion Hf; contradiction.
    + apply jsstr_eqb_neq in E. split.
      * intros [H Hf]. split; [exact H | constructor; assumption].
      * intros [H Hf]. inversion Hf; subst. auto.
Qed.

Lemma snapshot_of_get : forall arr k,
  map_get jsstr_eqb (snapshot_of arr) k =
  fold_left (fun acc c => if jsstr_eqb (id c) k then Some c else acc) arr None.
Proof.
  intros arr k. unfold snapshot_of, map_of_entries.
  rewrite (map_get_entries_acc jsstr_eqb jsstr_eqb_eq), fold_left_map_acc. reflexivity.
Qed.

(** The snapshot [main] builds from the scraped array has distinct keys,
    stores every record under its own [id], and maps an id to the last
    record of the array with that id (to nothing when no record has it). *)
Theorem snapshot_of_spec : forall arr,
  NoDup (keys (snapshot_of arr)) /\ keyed_by_id (snapshot_of arr) /\
  (forall k c, map_get jsstr_eqb (snapshot_of arr) k = Some c <->
     exists pre post, arr = pre ++ c :: post /\ id c = k /\
                      Forall (fun c' => id c' <> k) post) /\
  (forall k, map_get jsstr_eqb (snapshot_of arr) k = None <->
     Forall (fun c => id c <> k) arr).
Proof.
  intros arr. split; [|split; [|split]].
  - apply (entries_nodup jsstr_eqb jsstr_eqb_eq). constructor.
  - unfold keyed_by_id, snapshot_of, map_of_entries.
    apply (entries_forall jsstr_eqb jsstr_eqb_eq (fun '(k, c) => k = id c)); [constructor|].
    rewrite Forall_map. apply Forall_forall. intros c _. reflexivity.
  - intros k c. rewrite snapshot_of_get, fold_last_some.
    split; [intros [H|[H _]]; [exact H | discriminate] | intros H; left; exact H].
  - intros k. rewrite snapshot_of_get, fold_last_none. tauto.
Qed.

(** ** The records pushed by [fetchDetail] *)

Lemma map_normalize_canonical : forall l,
  forallb canonical l = true -> map normalizeText l = l.
Proof.
  induction l as [|x t IH]; intros H; simpl in *; [reflexivity|].
  apply andb_prop in H as [H1 H2]. rewrite normalizeText_canonical_id, IH by assumption.
  reflexivity.
Qed.

(** A record pushed by [fetchDetail] keeps the detail locator of its stub,
    has canonical text in its title, instructor, term, day and period,
    body, room and update date (the last two always present), and its
    fingerprint is [makeHash] of its own fields, which is the hash of those
    fields joined as stored: normalizing them again changes nothing. *)
Theorem fetchDetail_record : forall sha256_hex url_id_param fetch_page item c,
  fetchDetail sha256_hex url_id_param fetch_page item = Some c ->
  detailUrl c = s_url item /\
  forallb canonical [title c; instructor c; term c; dayPeriod c; bodyText c] = true /\
  (exists r u, room c = Some r /\ updatedAt c = Some u /\
               canonical r = true /\ canonical u = true) /\
  hash c = makeHash sha256_hex (base_of_course c) /\
  hash c = sha256_hex (join pipe (hash_fields (base_of_course c))).
Proof.
  intros sha url fetch item c H. unfold fetchDetail in H.
  destruct (fetch item) as [d|]; [|discriminate]. injection H as <-.
  unfold with_hash, base_of_course, base_of, hash_fields.
  cbn [b_id b_title b_instructor b_term b_dayPeriod b_room b_updatedAt b_bodyText b_detailUrl
       id title instructor term dayPeriod room updatedAt bodyText detailUrl hash
       forallb or_empty].
  rewrite !normalizeText_canonical.
  split; [reflexivity|]. split; [reflexivity|].
  split; [do 2 eexists; split; [reflexivity|]; split; [reflexivity|];
          split; apply normalizeText_canonical|].
  split; [reflexivity|].
  unfold makeHash, hash_key, hash_fields. cbn [b_title b_instructor b_term b_dayPeriod b_room
    b_updatedAt b_bodyText or_empty].
  f_equal. f_equal. apply map_normalize_canonical.
  cbn [forallb]. rewrite !normalizeText_canonical. reflexivity.
Qed.

(** ** What [normalizeText] keeps *)

Lemma filter_collapse : forall s b,
  filter (fun c => negb (is_ws c)) (collapse_ws b s) = filter (fun c => negb (is_ws c)) s.
Proof.
  induction s as [|c t IH]; intros b; simpl; [reflexivity|].
  destruct (is_ws c) eqn:E; simpl.
  - destruct b; simpl; rewrite IH; reflexivity.
  - rewrite E. simpl. rewrite IH. reflexivity.
Qed.

Lemma filter_drop_ws : forall s,
  filter (fun c => negb (is_ws c)) (drop_ws s) = filter (fun c => negb (is_ws c)) s.
Proof.
  induction s as [|c t IH]; simpl; [reflexivity|].
  destruct (is_ws c) eqn:E; simpl; [exact IH | rewrite E; reflexivity].
Qed.

Lemma filter_rev_comm : forall {A : Type} (f : A -> bool) s, filter f (rev s) = rev (filter f s).
Proof.
  intros A f. induction s as [|c t IH]; simpl; [reflexivity|].
  rewrite filter_app, IH. simpl. destruct (f c); simpl; [reflexivity | apply app_nil_r].
Qed.

Lemma filter_normalize : forall s,
  filter (fun c => negb (is_ws c)) (normalizeText s) = filter (fun c => negb (is_ws c)) s.
Proof.
  intros s. rewrite normalizeText_eq. unfold trim.
  rewrite filter_rev_comm, filter_drop_ws, filter_rev_comm, rev_involutive,
    filter_drop_ws, filter_collapse. reflexivity.
Qed.

(** [normalizeText] keeps every non-whitespace code unit, in order, and
    drops nothing else; so its result is empty exactly when the input is
    made of whitespace only. *)
Theorem normalizeText_keeps_content : forall s,
  filter (fun c => negb (is_ws c)) (normalizeText s) = filter (fun c => negb (is_ws c)) s /\
  (normalizeText s = [] <-> forallb is_ws s = true).
Proof.
  intros s. split; [apply filter_normalize|].
  assert (F : forall l, filter (fun c => negb (is_ws c)) l = [] <-> forallb is_ws l = true).
  { induction l as [|c t IH]; simpl; [tauto|].
    destruct (is_ws c); simpl; [exact IH | split; discriminate]. }
  rewrite <- F, <- filter_normalize. split; [intros -> ; reflexivity|].
  intros H. pose proof (proj1 (F _) H) as W.
  pose proof (trim_not_start (collapse_ws false s)) as S. rewrite <- normalizeText_eq in S.
  destruct (normalizeText s) as [|c t]; [reflexivity|].
  simpl in S, W. rewrite S in W. discriminate.
Qed.

(** ** [loadPrev] and a [null] element *)

Lemma id_entries_null : forall arr pos, In JNull arr -> id_entries pos arr = None.
Proof.
  induction arr as [|c t IH]; intros pos H; [destruct H|].
  destruct H as [E|H]; [subst c; reflexivity|]. simpl.
  destruct (elem_id pos c); [|reflexivity]. rewrite IH by exact H. reflexivity.
Qed.

(** A file that parses as an array with a [null] element anywhere loads as
    the empty snapshot: reading [c.id] on it throws. *)
Theorem loadPrev_null_element : forall (text : Type) (json_parse : text -> option json)
    (fs : FS text) filePath raw arr,
  fs filePath = Some raw -> json_parse raw = Some (JArr arr) -> In JNull arr ->
  loadPrev text json_parse fs filePath = [].
Proof.
  intros text parse fs path raw arr H1 H2 H3. unfold loadPrev.
  rewrite H1, H2, id_entries_null by exact H3. reflexivity.
Qed.

(** ** The worker pool of the scraper entry point, for any list *)

(** From its start, under every interleaving of its workers, the pool can
    step until every worker has returned, each step decreases
    [pool_measure], and when every worker has returned [courses] holds the
    records of the stubs whose fetch succeeded (one per stub, in some
    order), every index has been taken once in order, and records and
    failed fetches together number the stubs. *)
Theorem pool_drains : forall sha256_hex url_id_param fetch_page (queue : list Stub) s,
  pool_steps sha256_hex url_id_param fetch_page queue (pool_init queue) s ->
  (pool_finished s ->
     Permutation (courses s) (successes sha256_hex url_id_param fetch_page queue) /\
     taken s = seq 0 (List.length queue) /\
     (List.length (courses s) + failures fetch_page queue = List.length queue)%nat) /\
  (~ pool_finished s -> exists s', pool_step sha256_hex url_id_param fetch_page queue s s') /\
  (forall s', pool_step sha256_hex url_id_param fetch_page queue s s' ->
     (pool_measure queue s' < pool_measure queue s)%nat).
Proof.
  intros sha url fetch queue s Hs.
  pose proof (pool_inv_steps sha url fetch queue s Hs) as I.
  split; [|split].
  - intros Hf. destruct (pool_finished_result sha url fetch queue s I Hf) as [P T].
    split; [exact P|]. split; [exact T|].
    rewrite (Permutation_length P). apply successes_failures.
  - apply pool_progress.
  - intros s' St. exact (pool_measure_step sha url fetch queue s s' I St).
Qed.

(** ** The worker pool of the earlier scraper *)

Lemma qupd_sum : forall (ws : list qstate) k w x,
  nth_error ws k = Some w ->
  (list_sum (map qcost (upd ws k x)) + qcost w = list_sum (map qcost ws) + qcost x)%nat.
Proof.
  induction ws as [|y t IH]; intros [|k] w x H; simpl in *; try discriminate.
  - injection H as ->. lia.
  - specialize (IH k w x H). lia.
Qed.

Lemma upd_nonnil : forall {A : Type} (l : list A) k x, upd l k x = [] -> l = [].
Proof. intros A [|y t] [|k] x H; simpl in H; congruence. Qed.

Section QPoolProofs.
Context (sha256_hex : jsstr -> jsstr) (url_id_param : jsstr -> option (option jsstr))
        (fetch_page : Stub -> option Detail).

Local Abbreviation qbo := (qbusy_output sha256_hex url_id_param fetch_page).
Local Abbreviation succ := (successes sha256_hex url_id_param fetch_page).
Local Abbreviation qstep := (qpool_step sha256_hex url_id_param fetch_page).

Lemma qpending_upd : forall ws k w x,
  nth_error ws k = Some w ->
  Permutation (qbo w ++ flat_map qbo (upd ws k x)) (qbo x ++ flat_map qbo ws).
Proof.
  induction ws as [|y t IH]; intros [|k] w x H; simpl in *; try discriminate.
  - injection H as ->. apply Permutation_app_swap_app.
  - specialize (IH k w x H).
    rewrite Permutation_app_swap_app. rewrite (Permutation_app_swap_app (qbo x)).
    apply Permutation_app_head. exact IH.
Qed.

Lemma spawn_split : forall f w q ws q',
  spawn f w q = (ws, q') ->
  flat_map qbo ws ++ succ q' = succ q /\ ~ In QDone ws.
Proof.
  induction f as [|f IH]; intros w q ws q' H; simpl in H.
  - injection H as <- <-. split; [reflexivity | intros []].
  - match type of H with context [if ?b then _ else _] => destruct b end;
      [|injection H as <- <-; split; [reflexivity | intros []]].
    destruct q as [|it rest]; [cbn in H; injection H as <- <-; split; [reflexivity | intros []]|].
    destruct (spawn f (S w) rest) as [ws0 q0] eqn:E. injection H as <- <-.
    destruct (IH _ _ _ _ E) as [H1 H2]. split.
    + cbn [flat_map qbusy_output]. rewrite <- app_assoc, H1. reflexivity.
    + intros [H|H]; [discriminate | contradiction].
Qed.

Lemma spawn_first : forall f w it rest,
  (w < Nat.min MAX_CONCURRENCY (List.length (it :: rest)))%nat ->
  exists ws q, spawn (S f) w (it :: rest) = (QBusy it :: ws, q).
Proof.
  intros f w it rest H. cbn [spawn]. rewrite (proj2 (Nat.ltb_lt _ _) H).
  destruct (spawn f (S w) rest) as [ws q]. exists ws, q. reflexivity.
Qed.

Lemma qpool_inv_init : forall queue, qpool_inv sha256_hex url_id_param fetch_page queue (qpool_init queue).
Proof.
  intros queue. unfold qpool_init, qpool_inv.
  destruct (spawn MAX_CONCURRENCY 0 queue) as [ws q] eqn:E.
  destruct (spawn_split _ _ _ _ _ E) as [H1 H2]. cbn [qcourses qworkers queue_left app].
  split; [rewrite H1; reflexivity|]. split; [intros H; contradiction|].
  intros Hws. destruct queue as [|it rest]; [simpl in E; congruence|].
  destruct (spawn_first 2 0 it rest) as [ws0 [q0 E0]]; [cbn; lia|].
  unfold MAX_CONCURRENCY in E. rewrite E0 in E. injection E as E1 _. subst. discriminate.
Qed.

Lemma qpool_inv_step : forall queue s s',
  qpool_inv sha256_hex url_id_param fetch_page queue s -> qstep s s' ->
  qpool_inv sha256_hex url_id_param fetch_page queue s'.
Proof.
  intros queue s s' [Hp [Hd Hn]] St. unfold qpool_inv.
  destruct St as [s k it rest Hk Hq | s k Hk Hq | s k it Hk];
    cbn [queue_left qworkers qcourses].
  - pose proof (qpending_upd (qworkers s) k QIdle (QBusy it) Hk) as P. cbn [qbusy_output app] in P.
    split; [|split].
    + eapply Permutation_trans; [|exact Hp]. rewrite Hq. apply Permutation_app_head.
      rewrite P. cbn [flat_map]. rewrite <- app_assoc. apply Permutation_app_swap_app.
    + intros H. apply in_upd in H as [H|H]; [discriminate|]. rewrite (Hd H) in Hq. discriminate.
    + intros H. apply upd_nonnil in H. rewrite H in Hk. destruct k; discriminate.
  - pose proof (qpending_upd (qworkers s) k QIdle QDone Hk) as P. cbn [qbusy_output app] in P.
    split; [|split; intros _; reflexivity].
    rewrite P, <- Hq. exact Hp.
  - pose proof (qpending_upd (qworkers s) k (QBusy it) QIdle Hk) as P.
    cbn [qbusy_output app] in P.
    split; [|split].
    + rewrite <- app_assoc, (app_assoc _ (flat_map _ _)), P. exact Hp.
    + intros H. apply in_upd in H as [H|H]; [discriminate | exact (Hd H)].
    + intros H. apply upd_nonnil in H. rewrite H in Hk. destruct k; discriminate.
Qed.

Lemma qpool_inv_steps : forall queue s,
  qpool_steps sha256_hex url_id_param fetch_page (qpool_init queue) s ->
  qpool_inv sha256_hex url_id_param fetch_page queue s.
Proof.
  intros queue s H. remember (qpool_init queue) as s0 eqn:E.
  assert (I0 : qpool_inv sha256_hex url_id_param fetch_page queue s0)
    by (subst; apply qpool_inv_init). clear E.
  induction H as [s|s1 s2 s3 St _ IH]; [exact I0|].
  apply IH. exact (qpool_inv_step queue s1 s2 I0 St).
Qed.

Lemma qpool_progress : forall s, ~ qpool_finished s -> exists s', qstep s s'.
Proof.
  intros s Hf. unfold qpool_finished in Hf.
  assert (Hex : exists k w, nth_error (qworkers s) k = Some w /\ w <> QDone).
  { clear -Hf. induction (qworkers s) as [|w ws IH]; [exfalso; apply Hf; constructor|].
    destruct w.
    - exists 0%nat, QIdle. split; [reflexivity | discriminate].
    - exists 0%nat, (QBusy it). split; [reflexivity | discriminate].
    - destruct IH as [k [w [H1 H2]]].
      + intros H. apply Hf. constructor; auto.
      + exists (S k), w. auto. }
  destruct Hex as [k [[|it|] [Hk Hne]]]; [| |contradiction].
  - destruct (queue_left s) as [|it rest] eqn:Eq.
    + eexists. apply qstep_exit with (k := k); auto.
    + eexists. apply qstep_take with (k := k) (it := it) (rest := rest); auto.
  - eexists. apply qstep_fetch with (k := k) (it := it); auto.
Qed.

Lemma qpool_measure_step : forall s s', qstep s s' -> (qpool_measure s' < qpool_measure s)%nat.
Proof.
  intros s s' St. unfold qpool_measure.
  destruct St as [s k it rest Hk Hq | s k Hk Hq | s k it Hk]; cbn [queue_left qworkers].
  - pose proof (qupd_sum (qworkers s) k QIdle (QBusy it) Hk). rewrite Hq. simpl in *. lia.
  - pose proof (qupd_sum (qworkers s) k QIdle QDone Hk). rewrite Hq. simpl in *. lia.
  - pose proof (qupd_sum (qworkers s) k (QBusy it) QIdle Hk). simpl in *. lia.
Qed.
End QPoolProofs.

(** The pool of the earlier scraper, started by its spawning loop, can
    step under every interleaving until every worker has returned, each
    step decreases [qpool_measure], and when every worker has returned
    [courses] holds the records of the stubs whose fetch succeeded, one per
    stub. *)
Theorem qpool_drains : forall sha256_hex url_id_param fetch_page (queue : list Stub) s,
  qpool_steps sha256_hex url_id_param fetch_page (qpool_init queue) s ->
  (qpool_finished s ->
     Permutation (qcourses s) (successes sha256_hex url_id_param fetch_page queue)) /\
  (~ qpool_finished s -> exists s', qpool_step sha256_hex url_id_param fetch_page s s') /\
  (forall s', qpool_step sha256_hex url_id_param fetch_page s s' ->
     (qpool_measure s' < qpool_measure s)%nat).
Proof.
  intros sha url fetch queue s Hs.
  pose proof (qpool_inv_steps sha url fetch queue s Hs) as [Hp [Hd Hn]].
  split; [|split].
  - intros Hf. unfold qpool_finished in Hf.
    assert (Eq : queue_left s = []).
    { destruct (qworkers s) as [|w ws] eqn:Ew; [apply Hn; reflexivity|].
      inversion Hf; subst. apply Hd. left. reflexivity. }
    rewrite Eq in Hp. cbn [flat_map successes] in Hp.
    rewrite flat_map_all_nil in Hp.
    + rewrite !app_nil_r in Hp. exact Hp.
    + intros w Hw. rewrite Forall_forall in Hf. rewrite (Hf w Hw). reflexivity.
  - apply qpool_progress.
  - apply qpool_measure_step.
Qed.

(** The spawning loop of the earlier scraper re-reads [queue.length] after
    each started worker has shifted its first stub, so it starts
    [min(3, ceil(n / 2))] workers for [n] stubs: one for two stubs, two for
    three or four. *)
Theorem qpool_worker_count : forall queue : list Stub,
  List.length (qworkers (qpool_init queue)) =
  Nat.min MAX_CONCURRENCY ((List.length queue + 1) / 2).
Proof.
  intros queue. unfold qpool_init.
  destruct queue as [|a [|b [|c [|d [|e t]]]]]; try reflexivity.
  transitivity 3%nat; [reflexivity|]. symmetry. apply Nat.min_l.
  apply Nat.div_le_lower_bound; cbn [List.length]; lia.
Qed.

(** ** The list extraction of the earlier scraper *)

Lemma is_prefix_app : forall p s, is_prefix p s = true <-> exists r, s = p ++ r.
Proof.
  induction p as [|x p IH]; intros [|y s]; simpl.
  - split; [intros _; exists []; reflexivity | reflexivity].
  - split; [intros _; exists (y :: s); reflexivity | reflexivity].
  - split; [discriminate | intros [r H]; discriminate].
  - rewrite andb_true_iff, Z.eqb_eq, IH. split.
    + intros [-> [r ->]]. exists r. reflexivity.
    + intros [r H]. injection H as -> ->. split; [reflexivity | exists r; reflexivity].
Qed.

Lemma first_alternative_some : forall alts s a,
  first_alternative alts s = Some a -> In a alts /\ is_prefix a s = true.
Proof.
  induction alts as [|b t IH]; intros s a H; simpl in H; [discriminate|].
  destruct (is_prefix b s) eqn:E.
  - injection H as <-. split; [left; reflexivity | exact E].
  - destruct (IH s a H) as [H1 H2]. split; [right; exact H1 | exact H2].
Qed.

Lemma first_alternative_none : forall alts s,
  first_alternative alts s = None -> forall a, In a alts -> is_prefix a s = false.
Proof.
  induction alts as [|b t IH]; intros s H a Ha; [destruct Ha|]. simpl in H.
  destruct (is_prefix b s) eqn:E; [discriminate|].
  destruct Ha as [<-|Ha]; [exact E | exact (IH s H a Ha)].
Qed.

Lemma match_term_cons : forall c s,
  match_term (c :: s) =
  match first_alternative term_keywords (c :: s) with
  | Some a => Some a
  | None => match_term s
  end.
Proof. reflexivity. Qed.

Lemma match_term_nil : match_term [] = None.
Proof. reflexivity. Qed.

Lemma match_term_some : forall s t, match_term s = Some t ->
  exists pre post, s = pre ++ t ++ post /\ In t term_keywords /\
  (forall k, In k term_keywords -> forall i, (i < List.length pre)%nat ->
     is_prefix k (skipn i s) = false).
Proof.
  induction s as [|c s IH]; intros t H; [rewrite match_term_nil in H; discriminate|].
  rewrite match_term_cons in H.
  destruct (first_alternative term_keywords (c :: s)) as [a|] eqn:E.
  - injection H as <-. apply first_alternative_some in E as [Hin Hp].
    apply is_prefix_app in Hp as [r Hr]. exists [], r.
    split; [exact Hr|]. split; [exact Hin|]. intros k _ i Hi. simpl in Hi. lia.
  - destruct (IH t H) as [pre [post [Hs [Hin Hno]]]]. exists (c :: pre), post.
    split; [rewrite Hs; reflexivity|]. split; [exact Hin|].
    intros k Hk [|i] Hi.
    + exact (first_alternative_none _ _ E k Hk).
    + apply Hno; [exact Hk | simpl in Hi; lia].
Qed.

Lemma match_term_none : forall s, match_term s = None ->
  forall k, In k term_keywords -> forall i, is_prefix k (skipn i s) = false.
Proof.
  induction s as [|c s IH]; intros H k Hk i.
  - rewrite skipn_nil.
    change (match first_alternative term_keywords [] with Some a => Some a | None => None end
            = None) in H.
    destruct (first_alternative term_keywords []) eqn:E; [discriminate|].
    exact (first_alternative_none _ _ E k Hk).
  - rewrite match_term_cons in H.
    destruct (first_alternative term_keywords (c :: s)) eqn:E; [discriminate|].
    destruct i as [|i]; [exact (first_alternative_none _ _ E k Hk) | apply IH; assumption].
Qed.

Lemma replace_first_eq : forall pat s,
  replace_first pat s =
  if is_prefix pat s then skipn (List.length pat) s
  else match s with [] => [] | c :: t => c :: replace_first pat t end.
Proof. intros pat [|c t]; reflexivity. Qed.

Lemma replace_first_at : forall t pre post,
  (forall i, (i < List.length pre)%nat -> is_prefix t (skipn i (pre ++ t ++ post)) = false) ->
  replace_first t (pre ++ t ++ post) = pre ++ post.
Proof.
  intros t. induction pre as [|c pre IH]; intros post H.
  - cbn [app]. rewrite replace_first_eq.
    rewrite (proj2 (is_prefix_app t (t ++ post)) (ex_intro _ post eq_refl)).
    rewrite skipn_app, skipn_all, Nat.sub_diag. reflexivity.
  - assert (H0 : is_prefix t ((c :: pre) ++ t ++ post) = false)
      by (apply (H 0%nat); simpl; lia).
    rewrite replace_first_eq, H0. cbn [app]. f_equal. apply IH.
    intros i Hi. apply (H (S i)). simpl. lia.
Qed.

(** The [term] of a row is the leftmost term name of its schedule (at a
    position, the first alternative in order); its [dayPeriod] is the
    trimmed schedule without that very occurrence ([replace] removes the
    first occurrence of the name, and none starts earlier).  A schedule
    with no term name gives an empty [term] and the whole trimmed
    schedule. *)
Theorem split_schedule_spec : forall schedule,
  (match_term schedule = None ->
     (forall k, In k term_keywords -> forall i, is_prefix k (skipn i schedule) = false) /\
     split_schedule schedule = ([], trim schedule)) /\
  (forall t, match_term schedule = Some t ->
     exists pre post, schedule = pre ++ t ++ post /\ In t term_keywords /\
       (forall k, In k term_keywords -> forall i, (i < List.length pre)%nat ->
          is_prefix k (skipn i schedule) = false) /\
       split_schedule schedule = (t, trim (pre ++ post))).
Proof.
  intros schedule. split.
  - intros H. split; [exact (match_term_none schedule H)|].
    unfold split_schedule. rewrite H, replace_first_eq. reflexivity.
  - intros t H. destruct (match_term_some _ _ H) as [pre [post [Hs [Hin Hno]]]].
    exists pre, post. split; [exact Hs|]. split; [exact Hin|]. split; [exact Hno|].
    unfold split_schedule. rewrite H. f_equal. f_equal. rewrite Hs.
    apply replace_first_at. intros i Hi. rewrite <- Hs. apply Hno; [exact Hin | exact Hi].
Qed.

(** Every stub the earlier scraper extracts has a non-empty, trimmed
    course code and a non-empty locator, so its record's id is that code:
    the fallback to the locator is never used on this path. *)
Theorem extract_rows_ids : forall url_id_param rows st,
  In st (extract_rows rows) ->
  s_id st <> [] /\ s_url st <> [] /\
  starts_ws (s_id st) = false /\ ends_ws (s_id st) = false /\
  resolve_id url_id_param st = s_id st.
Proof.
  intros url rows st H. unfold extract_rows in H. apply in_flat_map in H as [r [_ Hr]].
  destruct (extract_row r) as [st'|] eqn:E; [|destruct Hr]. destruct Hr as [<-|[]].
  unfold extract_row in E.
  destruct r as [|c0 [|c1 [|c2 [|c3 [|c4 rest]]]]]; try discriminate.
  cbv zeta in E.
  destruct (split_schedule (trim (cell_text c3))) as [tm dp].
  pose proof (trim_not_start (cell_text c1)) as S1. pose proof (trim_not_end (cell_text c1)) as S2.
  revert E S1 S2. destruct (trim (cell_text c1)) as [|x xs]; [discriminate|].
  destruct (cell_anchor c2) as [[at0 h]|]; [|discriminate].
  destruct h as [|y ys]; [discriminate|].
  intros E S1 S2. injection E as <-. cbn [s_id s_url]. unfold resolve_id. cbn [s_id js_or].
  split; [discriminate|]. split; [discriminate|]. split; [exact S1|]. split; [exact S2|].
  reflexivity.
Qed.

(** * Evaluations at concrete inputs *)

Ltac nodup_concrete := repeat (constructor; [simpl; intuition discriminate|]); constructor.

Lemma compareCourses_classification_witness :
  NoDup (keys ex_prev) /\ NoDup (keys ex_curr) /\
  In (ex_course "C2" "b") (added (compareCourses ex_prev ex_curr)).
Proof.
  assert (H1 : NoDup (keys ex_prev)) by nodup_concrete.
  assert (H2 : NoDup (keys ex_curr)) by nodup_concrete.
  split; [exact H1|]. split; [exact H2|].
  pose proof (compareCourses_classification ex_prev ex_curr H1 H2) as T. cbv zeta in T.
  apply (proj1 T). exists (lit "C2"). split; reflexivity.
Defined.

Lemma compareCourses_partition_witness :
  NoDup (keys ex_prev) /\ NoDup (keys ex_curr) /\
  compareCourses ex_curr ex_curr = {| added := []; changed := []; removed := [] |}.
Proof.
  assert (H1 : NoDup (keys ex_prev)) by nodup_concrete.
  assert (H2 : NoDup (keys ex_curr)) by nodup_concrete.
  split; [exact H1|]. split; [exact H2|].
  exact (proj2 (proj2 (proj2 (compareCourses_partition ex_prev ex_curr H1 H2)))).
Defined.

Lemma makeHash_spec_witness :
  map normalizeText (hash_fields (ex_base ex_title1))
  = map normalizeText (hash_fields (ex_base ex_title2)) /\
  makeHash (fun s => s) (ex_base ex_title1) = makeHash (fun s => s) (ex_base ex_title2).
Proof.
  assert (H : map normalizeText (hash_fields (ex_base ex_title1))
              = map normalizeText (hash_fields (ex_base ex_title2))) by (vm_compute; reflexivity).
  split; [exact H|].
  exact (proj2 (makeHash_spec (fun s => s) (ex_base ex_title1) (ex_base ex_title2)) H).
Defined.

Lemma loadPrev_failure_empty_witness :
  @empty_fs jsstr (lit "./data/courses.json") = None /\
  loadPrev jsstr (fun _ => None) empty_fs (lit "./data/courses.json") = [].
Proof.
  split; [reflexivity|].
  apply loadPrev_failure_empty. left. reflexivity.
Defined.

Lemma pool_seven_stubs_two_failures_witness :
  List.length ex_queue = 7%nat /\ failures ex_fetch ex_queue = 2%nat /\
  exists s', pool_step (fun s => s) simple_url_id_param ex_fetch ex_queue
               (pool_init ex_queue) s'.
Proof.
  split; [reflexivity|]. split; [vm_compute; reflexivity|].
  apply (proj1 (proj2 (pool_seven_stubs_two_failures (fun s => s) simple_url_id_param
           ex_fetch ex_queue eq_refl eq_refl _ (steps_refl _ _ _ _ _)))).
  unfold pool_finished. simpl. intros H. inversion H. discriminate.
Defined.

Lemma save_load_roundtrip_witness :
  (forall j : json, Some j = Some j) /\
  loadPrev json Some (saveCurr json (fun j => j) empty_fs (lit "out.json") [course_A "x"])
    (lit "out.json") = [(KStr (lit "A"), course_to_json (course_A "x"))].
Proof.
  split; [reflexivity|].
  pose proof (save_load_roundtrip json Some (fun j => j) (fun j => eq_refl) empty_fs
                (lit "out.json") [course_A "x"]) as T. cbv zeta in T.
  apply (proj2 (proj2 (proj2 (proj2 T)))). nodup_concrete.
Defined.

Lemma resolve_id_rule_witness :
  s_id stub_with_id_param = [] /\
  simple_url_id_param (s_url stub_with_id_param) = Some (Some (lit "42")) /\
  resolve_id simple_url_id_param stub_with_id_param = lit "42".
Proof.
  split; [reflexivity|]. split; [vm_compute; reflexivity|].
  apply (proj1 (proj2 (resolve_id_rule (fun s => s) simple_url_id_param ex_fetch
                         stub_with_id_param)) eq_refl).
  - vm_compute. reflexivity.
  - discriminate.
Defined.

Lemma compareCourses_diff_invariant_witness :
  NoDup (keys ex_prev) /\ NoDup (keys ex_curr) /\ keyed_by_id ex_prev /\ keyed_by_id ex_curr /\
  map_get jsstr_eqb ex_prev (id (ex_course "C2" "b")) = None.
Proof.
  assert (H1 : NoDup (keys ex_prev)) by nodup_concrete.
  assert (H2 : NoDup (keys ex_curr)) by nodup_concrete.
  assert (K1 : keyed_by_id ex_prev) by (repeat constructor).
  assert (K2 : keyed_by_id ex_curr) by (repeat constructor).
  repeat (split; [assumption|]).
  pose proof (compareCourses_diff_invariant ex_prev ex_curr H1 H2 K1 K2) as T. cbv zeta in T.
  apply (proj1 (proj2 T)). vm_compute. left. reflexivity.
Defined.

Lemma escapeHtml_injective_witness :
  escapeHtml (lit "a<b") = lit "a&lt;b" /\ lit "a<b" = lit "a<b".
Proof.
  split; [vm_compute; reflexivity|].
  apply escapeHtml_injective. reflexivity.
Defined.

Lemma escapeHtml_plain_identity_witness :
  (forall c, In c (lit "x=" ++ dq ++ lit "y" ++ dq) -> c <> 38 /\ c <> 60 /\ c <> 62) /\
  escapeHtml (lit "x=" ++ dq ++ lit "y" ++ dq) = lit "x=" ++ dq ++ lit "y" ++ dq.
Proof.
  assert (H : forall c, In c (lit "x=" ++ dq ++ lit "y" ++ dq) -> c <> 38 /\ c <> 60 /\ c <> 62).
  { intros c Hc. vm_compute in Hc.
    repeat (destruct Hc as [Hc|Hc]; [subst; lia|]). destruct Hc. }
  split; [exact H|]. exact (escapeHtml_plain_identity _ H).
Defined.

Lemma fetchDetail_record_witness :
  exists c, fetchDetail (fun s => s) simple_url_id_param ex_fetch (ex_stub 1) = Some c /\
            hash c = makeHash (fun s => s) (base_of_course c).
Proof.
  destruct (fetchDetail (fun s => s) simple_url_id_param ex_fetch (ex_stub 1)) as [c|] eqn:E.
  - exists c. split; [reflexivity|].
    exact (proj1 (proj2 (proj2 (proj2
      (fetchDetail_record (fun s => s) simple_url_id_param ex_fetch (ex_stub 1) c E))))).
  - vm_compute in E. discriminate.
Defined.

Lemma loadPrev_null_element_witness :
  (fun _ : jsstr => Some ex_null_file) (lit "c.json") = Some ex_null_file /\
  In JNull [course_to_json (course_A "x"); JNull] /\
  loadPrev json Some (fun _ => Some ex_null_file) (lit "c.json") = [].
Proof.
  assert (H : In JNull [course_to_json (course_A "x"); JNull]) by (right; left; reflexivity).
  split; [reflexivity|]. split; [exact H|].
  exact (loadPrev_null_element json Some (fun _ => Some ex_null_file) (lit "c.json")
           ex_null_file _ eq_refl eq_refl H).
Defined.

Lemma pool_drains_witness :
  exists s', pool_step (fun s => s) simple_url_id_param ex_fetch ex_queue (pool_init ex_queue) s'.
Proof.
  apply (proj1 (proj2 (pool_drains (fun s => s) simple_url_id_param ex_fetch ex_queue _
           (steps_refl _ _ _ _ _)))).
  unfold pool_finished. simpl. intros H. inversion H. discriminate.
Defined.

Lemma qpool_drains_witness :
  List.length (qworkers (qpool_init ex_queue)) = 3%nat /\
  exists s', qpool_step (fun s => s) simple_url_id_param ex_fetch (qpool_init ex_queue) s'.
Proof.
  split; [reflexivity|].
  apply (proj1 (proj2 (qpool_drains (fun s => s) simple_url_id_param ex_fetch ex_queue _
           (qsteps_refl _ _ _ _)))).
  unfold qpool_finished. simpl. intros H. inversion H. discriminate.
Defined.

Lemma split_schedule_spec_witness :
  match_term ex_schedule = Some [21069; 26399] /\
  split_schedule ex_schedule = ([21069; 26399], [26376; 49]) /\
  exists pre post, ex_schedule = pre ++ [21069; 26399] ++ post /\
    split_schedule ex_schedule = ([21069; 26399], trim (pre ++ post)).
Proof.
  assert (H : match_term ex_schedule = Some [21069; 26399]) by (vm_compute; reflexivity).
  split; [exact H|]. split; [vm_compute; reflexivity|].
  destruct (proj2 (split_schedule_spec ex_schedule) _ H) as [pre [post [H1 [_ [_ H4]]]]].
  exists pre, post. split; [exact H1 | exact H4].
Defined.

Lemma extract_rows_ids_witness :
  In ex_row_stub (extract_rows [ex_row]) /\
  resolve_id simple_url_id_param ex_row_stub = lit "C9".
Proof.
  assert (H : In ex_row_stub (extract_rows [ex_row])) by (vm_compute; left; reflexivity).
  split; [exact H|].
  exact (proj2 (proj2 (proj2 (proj2 (extract_rows_ids simple_url_id_param [ex_row] ex_row_stub H))))).
Defined.

Lemma notifySlack_text_witness :
  notifySlack (fun j : json => j) [] {| added := []; changed := []; removed := [] |} = None /\
  notify_text {| added := []; changed := []; removed := [] |} = no_diff_text.
Proof.
  pose proof (notifySlack_text json (fun j => j) [] {| added := []; changed := []; removed := [] |})
    as [H1 [_ H3]].
  split; [apply H1; reflexivity | apply H3; split; [reflexivity | split; reflexivity]].
Defined.

Lemma snapshot_of_spec_witness :
  map_get jsstr_eqb (snapshot_of [course_A "x"; course_A "y"]) (lit "A") = Some (course_A "y").
Proof.
  apply (proj2 (proj1 (proj2 (proj2 (snapshot_of_spec [course_A "x"; course_A "y"]))) _ _)).
  exists [course_A "x"], []. split; [reflexivity|]. split; [reflexivity | constructor].
Defined.

Lemma normalizeText_keeps_content_witness :
  forallb is_ws [32; 10; 160] = true /\ normalizeText [32; 10; 160] = [].
Proof.
  split; [reflexivity|]. apply (proj2 (normalizeText_keeps_content [32; 10; 160])). reflexivity.
Defined.

(** * Counterexamples *)

(** C7: with two records sharing the id ["A"], the saved file holds both,
    but the loaded snapshot holds one entry, the later record. *)
Lemma save_load_duplicate_ids_counterexample :
  let cs := [course_A "x"; course_A "y"] in
  let m := loadPrev json Some (saveCurr json (fun j => j) empty_fs (lit "out.json") cs)
             (lit "out.json") in
  List.length m = 1%nat /\
  map_get mkey_eqb m (KStr (lit "A")) = Some (course_to_json (course_A "y")) /\
  ~ (forall c, In c cs -> map_get mkey_eqb m (KStr (id c)) = Some (course_to_json c)).
Proof.
  cbv zeta. split; [vm_compute; reflexivity|]. split; [vm_compute; reflexivity|].
  intros H. specialize (H (course_A "x") (or_introl eq_refl)).
  vm_compute in H. discriminate.
Qed.

(** C8: a stub without a course code whose locator carries the [id]
    parameter with an empty value gets the locator itself as its id, not
    the (empty) parameter value. *)
Lemma resolve_id_empty_param_counterexample :
  s_id stub_empty_id_param = [] /\
  simple_url_id_param (s_url stub_empty_id_param) = Some (Some []) /\
  resolve_id simple_url_id_param stub_empty_id_param = s_url stub_empty_id_param /\
  resolve_id simple_url_id_param stub_empty_id_param <> [].
Proof.
  split; [reflexivity|]. split; [vm_compute; reflexivity|].
  split; [vm_compute; reflexivity | vm_compute; discriminate].
Qed.
